(** * lsquaredc: the I2C transaction-sequence compiler

    A shallow embedding of [count_segments] and [i2c_send_sequence] of
    [lsquaredc.c], with the properties of the sequence compiler proved
    about it.

    Conventions.
    - C integers are [Z] with the wrap-around of their type written out
      ([u8], [u16], [u32]); the fields of a [struct i2c_msg] are 16 bits
      wide, and a message is [stored] into them.
    - The two heap blocks of a call, [messages] and [msg_buf], are lists of
      cells; a cell that was never written holds [None].  Pointers into a
      block are offsets.  Reading or writing outside a block, or reading
      the token array outside its [sequence_length] elements, is a [Fault].
    - The loops take fuel; [OutOfFuel] is a result of its own, and the
      fuel the entry point passes is shown to be enough.
    - [malloc] is taken to succeed.  What the call does to the outside
      (allocation, the ioctl, release) is recorded as a trace of events. *)

From Stdlib Require Import ZArith Lia.
From Stdlib Require String DecimalString.
Import String.StringSyntax.
Delimit Scope string_scope with string.
From stdpp Require Import base tactics option list numbers.

Local Open Scope Z_scope.

(** ** Results of running C code under fuel *)

Inductive outcome (A : Type) : Type :=
  | Ok (a : A)
  | Fault
  | OutOfFuel.

Arguments Ok {A} a.
Arguments Fault {A}.
Arguments OutOfFuel {A}.

#[export] Instance outcome_ret : MRet outcome := fun A a => Ok a.

#[export] Instance outcome_bind : MBind outcome := fun A B f m =>
  match m with
  | Ok a => f a
  | Fault => Fault
  | OutOfFuel => OutOfFuel
  end.

(** ** Machine integers *)

Definition u8 (z : Z) : Z := z mod 2 ^ 8.
Definition u16 (z : Z) : Z := z mod 2 ^ 16.
Definition u32 (z : Z) : Z := z mod 2 ^ 32.

(** ** Constants *)

(** The two out-of-band token values of [lsquaredc.h].  They are parameters
    of the development: the code only ever compares a token with
    [I2C_RESTART], and [I2C_READ] is what callers put where a byte is to be
    read. *)
Class LSquaredC_h : Type := {
  I2C_RESTART : Z;
  I2C_READ : Z
}.

(** What the comment on [i2c_send_sequence] asks of the two values: they are
    16-bit tokens outside the range of 8-bit data, and they differ. *)
Definition out_of_band `{LSquaredC_h} : Prop :=
  (255 < I2C_RESTART < 2 ^ 16) ∧ (255 < I2C_READ < 2 ^ 16) ∧ I2C_READ ≠ I2C_RESTART.

(** From [<linux/i2c-dev.h>] and [<linux/i2c.h>]. *)
Definition I2C_RDRW_IOCTL_MAX_MSGS : Z := 42.
Definition I2C_M_RD : Z := 1.

Definition WRITING : Z := 0.
Definition READING : Z := 1.

(** ** Data *)

(** Where a message's [buf] points: into the call's own [msg_buf], or into
    the caller's [received_data], each at a byte offset. *)
Inductive pointer : Type :=
  | Msg_buf (offset : Z)
  | Received_data (offset : Z).

(** [struct i2c_msg] of [<linux/i2c.h>], the four fields the compiler
    assigns: [__u16 addr], [__u16 flags], [__u16 len] and [__u8 *buf]. *)
Record i2c_msg : Type := {
  addr : Z;
  flags : Z;
  len : Z;
  buf : pointer
}.

(** What the fields of a [struct i2c_msg] hold once the values of [m] are
    assigned to them: each number converted to [__u16]. *)
Definition stored (m : i2c_msg) : i2c_msg :=
  {| addr := u16 (addr m);
     flags := u16 (flags m);
     len := u16 (len m);
     buf := buf m |}.

(** The address and the flags of [m] are values of their 16-bit fields:
    storing [m] changes at most its [len]. *)
Definition narrow (m : i2c_msg) : Prop :=
  u16 (addr m) = addr m ∧ u16 (flags m) = flags m.

(** The locals of [i2c_send_sequence] while its loop runs.  [messages] and
    [msg_buf] are the two blocks; [current_message], [msg_cur_buf_ptr] and
    [msg_cur_buf_base] are offsets into them; [received_data] is the offset
    from the pointer the caller passed. *)
Record state : Type := {
  messages : list (option i2c_msg);
  current_message : Z;
  msg_buf : list (option Z);
  msg_cur_buf_ptr : Z;
  msg_cur_buf_base : Z;
  msg_cur_buf_size : Z;
  address : Z;
  rw : Z;
  received_data : Z;
  i : Z
}.

(** What [ioctl(handle, I2C_RDWR, &message_sequence)] is given: the handle,
    the message array with its count, and the write data the messages
    point into. *)
Record i2c_rdwr_ioctl_data : Type := {
  handle : Z;
  msgs : list (option i2c_msg);
  nmsgs : Z;
  write_data : list (option Z)
}.

Inductive event : Type :=
  | Malloc_messages (count : Z)
  | Malloc_msg_buf (size : Z)
  | Ioctl_I2C_RDWR (d : i2c_rdwr_ioctl_data)
  | Free_msg_buf
  | Free_messages.

Definition is_ioctl (e : event) : bool :=
  match e with Ioctl_I2C_RDWR _ => true | _ => false end.

Definition is_malloc (e : event) : bool :=
  match e with Malloc_messages _ | Malloc_msg_buf _ => true | _ => false end.

(** ** Memory accesses *)

(** [sequence[i]] *)
Definition token (sequence : list Z) (sequence_length i : Z) : outcome Z :=
  if (0 <=? i) && (i <? sequence_length) then
    match sequence !! Z.to_nat i with
    | Some t => Ok t
    | None => Fault
    end
  else Fault.

(** [*msg_cur_buf_ptr++ = b] *)
Definition store_byte (b : Z) (st : state) : outcome state :=
  let p := msg_cur_buf_ptr st in
  if (0 <=? p) && (p <? Z.of_nat (length (msg_buf st))) then
    Ok {| messages := messages st;
          current_message := current_message st;
          msg_buf := <[Z.to_nat p := Some b]> (msg_buf st);
          msg_cur_buf_ptr := p + 1;
          msg_cur_buf_base := msg_cur_buf_base st;
          msg_cur_buf_size := msg_cur_buf_size st;
          address := address st;
          rw := rw st;
          received_data := received_data st;
          i := i st |}
  else Fault.

(** The four assignments through [current_message], then [current_message++] *)
Definition store_message (m : i2c_msg) (st : state) : outcome state :=
  let c := current_message st in
  if (0 <=? c) && (c <? Z.of_nat (length (messages st))) then
    Ok {| messages := <[Z.to_nat c := Some m]> (messages st);
          current_message := c + 1;
          msg_buf := msg_buf st;
          msg_cur_buf_ptr := msg_cur_buf_ptr st;
          msg_cur_buf_base := msg_cur_buf_base st;
          msg_cur_buf_size := msg_cur_buf_size st;
          address := address st;
          rw := rw st;
          received_data := received_data st;
          i := i st |}
  else Fault.

(** ** [count_segments] *)

Section Compiler.
Context `{LSquaredC_h}.

Fixpoint count_segments_for (fuel : nat) (sequence : list Z) (sequence_length : Z)
    (i number_of_segments : Z) : outcome Z :=
  if i <? sequence_length then
    match fuel with
    | O => OutOfFuel
    | S fuel' =>
        t ← token sequence sequence_length i;
        count_segments_for fuel' sequence sequence_length (u32 (i + 1))
          (if t =? I2C_RESTART then u32 (number_of_segments + 1) else number_of_segments)
    end
  else Ok number_of_segments.

Definition count_segments (sequence : list Z) (sequence_length : Z) : outcome Z :=
  count_segments_for (Z.to_nat sequence_length) sequence sequence_length 1 1.

(** ** The loop of [i2c_send_sequence] *)

(** [msg_cur_buf_size++] *)
Definition count_byte (st : state) : state :=
  {| messages := messages st;
     current_message := current_message st;
     msg_buf := msg_buf st;
     msg_cur_buf_ptr := msg_cur_buf_ptr st;
     msg_cur_buf_base := msg_cur_buf_base st;
     msg_cur_buf_size := u32 (msg_cur_buf_size st + 1);
     address := address st;
     rw := rw st;
     received_data := received_data st;
     i := i st |}.

(** [if(rw == READING) received_data += msg_cur_buf_size] *)
Definition advance_received_data (st : state) : state :=
  {| messages := messages st;
     current_message := current_message st;
     msg_buf := msg_buf st;
     msg_cur_buf_ptr := msg_cur_buf_ptr st;
     msg_cur_buf_base := msg_cur_buf_base st;
     msg_cur_buf_size := msg_cur_buf_size st;
     address := address st;
     rw := rw st;
     received_data :=
       if rw st =? READING then received_data st + msg_cur_buf_size st
       else received_data st;
     i := i st |}.

(** [address = a; rw = address & 1; msg_cur_buf_size = 0;
    msg_cur_buf_base = msg_cur_buf_ptr], with [i] set to [j] *)
Definition begin_segment (a : Z) (j : Z) (st : state) : state :=
  {| messages := messages st;
     current_message := current_message st;
     msg_buf := msg_buf st;
     msg_cur_buf_ptr := msg_cur_buf_ptr st;
     msg_cur_buf_base := msg_cur_buf_ptr st;
     msg_cur_buf_size := 0;
     address := u8 a;
     rw := Z.land (u8 a) 1;
     received_data := received_data st;
     i := j |}.

(** [i++] *)
Definition next_token (st : state) : state :=
  {| messages := messages st;
     current_message := current_message st;
     msg_buf := msg_buf st;
     msg_cur_buf_ptr := msg_cur_buf_ptr st;
     msg_cur_buf_base := msg_cur_buf_base st;
     msg_cur_buf_size := msg_cur_buf_size st;
     address := address st;
     rw := rw st;
     received_data := received_data st;
     i := u32 (i st + 1) |}.

(** The message the loop fills in when a segment is complete: the four
    assignments, each into a 16-bit field or the pointer. *)
Definition segment_message (st : state) : i2c_msg :=
  {| addr := u16 (Z.shiftr (address st) 1);
     flags := u16 (if rw st =? 0 then 0 else I2C_M_RD);
     len := u16 (msg_cur_buf_size st);
     buf := if rw st =? 0 then Msg_buf (msg_cur_buf_base st)
            else Received_data (received_data st) |}.

(** One turn of the [while] loop. *)
Definition loop_body (sequence : list Z) (sequence_length : Z) (st : state) : outcome state :=
  t ← token sequence sequence_length (i st);
  st ← (if negb (t =? I2C_RESTART) then
          st ← (if rw st =? WRITING then store_byte (u8 t) st else Ok st);
          Ok (count_byte st)
        else Ok st);
  st ← (if (t =? I2C_RESTART) || (i st =? u32 (sequence_length - 1)) then
          st ← store_message (segment_message st) st;
          let st := advance_received_data st in
          if i st <? u32 (sequence_length - 2) then
            a ← token sequence sequence_length (u32 (i st + 1));
            Ok (begin_segment a (u32 (i st + 1)) st)
          else Ok st
        else Ok st);
  Ok (next_token st).

Fixpoint loop (fuel : nat) (sequence : list Z) (sequence_length : Z) (st : state)
    : outcome state :=
  if i st <? sequence_length then
    match fuel with
    | O => OutOfFuel
    | S fuel' =>
        st ← loop_body sequence sequence_length st;
        loop fuel' sequence sequence_length st
    end
  else Ok st.

(** The state at the head of the loop: both blocks allocated and not yet
    written, the first token decoded. *)
Definition initial_state (number_of_segments : Z) (a : Z) (sequence_length : Z) : state :=
  {| messages := replicate (Z.to_nat number_of_segments) None;
     current_message := 0;
     msg_buf := replicate (Z.to_nat sequence_length) None;
     msg_cur_buf_ptr := 0;
     msg_cur_buf_base := 0;
     msg_cur_buf_size := 0;
     address := u8 a;
     rw := Z.land (u8 a) 1;
     received_data := 0;
     i := 1 |}.

(** Lines 119-153: the compilation proper, from the decoding of token 0 to
    the end of the loop. *)
Definition compile (sequence : list Z) (sequence_length : Z) (number_of_segments : Z)
    : outcome state :=
  a ← token sequence sequence_length 0;
  loop (Z.to_nat sequence_length) sequence sequence_length
    (initial_state number_of_segments a sequence_length).

(** ** [i2c_send_sequence] *)

Record returned : Type := {
  trace : list event;
  result : Z
}.

Section Entry.
(** The kernel's answer to the ioctl. *)
Variable ioctl : i2c_rdwr_ioctl_data → Z.

Definition i2c_send_sequence (h : Z) (sequence : list Z) (sequence_length : Z)
    : outcome returned :=
  number_of_segments ← count_segments sequence sequence_length;
  let allocated := [Malloc_messages number_of_segments; Malloc_msg_buf sequence_length] in
  let cleanup := [Free_msg_buf; Free_messages] in
  if sequence_length <? 2 then
    Ok {| trace := allocated ++ cleanup; result := -1 |}
  else if I2C_RDRW_IOCTL_MAX_MSGS <? number_of_segments then
    Ok {| trace := allocated ++ cleanup; result := -1 |}
  else
    st ← compile sequence sequence_length number_of_segments;
    let message_sequence :=
      {| handle := h; msgs := messages st; nmsgs := number_of_segments;
         write_data := msg_buf st |} in
    Ok {| trace := allocated ++ [Ioctl_I2C_RDWR message_sequence] ++ cleanup;
          result := ioctl message_sequence |}.

End Entry.

(** ** The loop, seen from the token list

    The same pass, told without memory and without an index: what the
    loop has produced so far, and what it does with the tokens still to
    come.  [loop] is shown below to compute exactly this.

    [segments] lists the segments closed so far, each as the message with
    the values the loop assigns: its [len] is the byte count of the
    segment, the value of [msg_cur_buf_size].  The array [messages] holds
    [stored] of each, the count modulo 2^16. *)

Record progress : Type := {
  segments : list i2c_msg;
  written : list Z;
  seg_base : Z;
  seg_size : Z;
  seg_address : Z;
  seg_rw : Z;
  read_offset : Z
}.

(** A block of [n] cells of which the first [length xs] were written. *)
Definition cells {A : Type} (n : Z) (xs : list A) : list (option A) :=
  (Some <$> xs) ++ replicate (Z.to_nat n - length xs) None.

(** The locals that stand for [p] when the loop is at index [j]. *)
Definition state_of (number_of_segments sequence_length : Z) (p : progress) (j : Z) : state :=
  {| messages := cells number_of_segments (stored <$> segments p);
     current_message := Z.of_nat (length (segments p));
     msg_buf := cells sequence_length (written p);
     msg_cur_buf_ptr := Z.of_nat (length (written p));
     msg_cur_buf_base := seg_base p;
     msg_cur_buf_size := seg_size p;
     address := seg_address p;
     rw := seg_rw p;
     received_data := read_offset p;
     i := j |}.

Definition start (a : Z) : progress :=
  {| segments := []; written := [];
     seg_base := 0; seg_size := 0;
     seg_address := u8 a; seg_rw := Z.land (u8 a) 1;
     read_offset := 0 |}.

(** The values the loop assigns when the segment in progress is closed;
    what reaches the array is [stored] of this. *)
Definition message_of (p : progress) : i2c_msg :=
  {| addr := Z.shiftr (seg_address p) 1;
     flags := if seg_rw p =? 0 then 0 else I2C_M_RD;
     len := seg_size p;
     buf := if seg_rw p =? 0 then Msg_buf (seg_base p)
            else Received_data (read_offset p) |}.

(** A token that is not [I2C_RESTART]: staged if the segment writes, counted
    either way. *)
Definition absorb (t : Z) (p : progress) : progress :=
  {| segments := segments p;
     written := if seg_rw p =? WRITING then written p ++ [u8 t] else written p;
     seg_base := seg_base p;
     seg_size := seg_size p + 1;
     seg_address := seg_address p;
     seg_rw := seg_rw p;
     read_offset := read_offset p |}.

(** The segment is complete. *)
Definition close (p : progress) : progress :=
  {| segments := segments p ++ [message_of p];
     written := written p;
     seg_base := seg_base p;
     seg_size := seg_size p;
     seg_address := seg_address p;
     seg_rw := seg_rw p;
     read_offset :=
       if seg_rw p =? READING then read_offset p + seg_size p else read_offset p |}.

(** Another transaction is coming, and [a] is its address byte. *)
Definition open (a : Z) (p : progress) : progress :=
  {| segments := segments p;
     written := written p;
     seg_base := Z.of_nat (length (written p));
     seg_size := 0;
     seg_address := u8 a;
     seg_rw := Z.land (u8 a) 1;
     read_offset := read_offset p |}.

Definition take_token (t : Z) (p : progress) : progress :=
  if t =? I2C_RESTART then p else absorb t p.

(** [walk rest p]: the loop from the point where it has produced [p] and
    the tokens [rest] are still to be visited.  The last token closes a
    segment; an [I2C_RESTART] closes one too, and the token after it is
    read as an address only when yet another token follows that one. *)
Fixpoint walk (rest : list Z) (p : progress) : progress :=
  match rest with
  | [] => p
  | t :: rest' =>
      match rest' with
      | [] => close (take_token t p)
      | a :: rest'' =>
          if t =? I2C_RESTART then
            match rest'' with
            | [] => walk rest' (close p)
            | _ :: _ => walk rest'' (open a (close p))
            end
          else walk rest' (absorb t p)
      end
  end.

(** The data tokens of one segment, taken in order. *)
Fixpoint absorb_all (ds : list Z) (p : progress) : progress :=
  match ds with
  | [] => p
  | t :: ds' => absorb_all ds' (absorb t p)
  end.

(** The progress right after the address byte [a] was read, with the
    messages [ms] filled in, the bytes [bs] staged and [r] bytes asked for. *)
Definition at_start (ms : list i2c_msg) (bs : list Z) (r : Z) (a : Z) : progress :=
  {| segments := ms; written := bs;
     seg_base := Z.of_nat (length bs); seg_size := 0;
     seg_address := u8 a; seg_rw := Z.land (u8 a) 1;
     read_offset := r |}.

End Compiler.

Arguments cells : simpl never.

(** ** Vocabulary of the statements *)

(** A segment as the caller thinks of it: its address token and the tokens
    of its data. *)
Abbreviation segment := (Z * list Z)%type.

Section Vocabulary.
Context `{LSquaredC_h}.

(** The C types of the two arguments: [sequence] points to
    [sequence_length] tokens, and [sequence_length] is a [uint32_t]. *)
Definition fits (sequence : list Z) (sequence_length : Z) : Prop :=
  sequence_length = Z.of_nat (length sequence) ∧ sequence_length < 2 ^ 32.

(** The number of [I2C_RESTART] tokens of a list. *)
Fixpoint restarts (l : list Z) : Z :=
  match l with
  | [] => 0
  | t :: l' => (if t =? I2C_RESTART then 1 else 0) + restarts l'
  end.

(** Every [I2C_RESTART] of the list has a token after it, and that token is
    not [I2C_RESTART]. *)
Fixpoint followed (l : list Z) : bool :=
  match l with
  | [] => true
  | t :: l' =>
      (if t =? I2C_RESTART then
         match l' with
         | [] => false
         | a :: _ => negb (a =? I2C_RESTART)
         end
       else true) && followed l'
  end.

(** What a call returns when it gives up before the ioctl, and when it
    submits [d]. *)
Definition rejected (number_of_segments sequence_length : Z) : returned :=
  {| trace := [Malloc_messages number_of_segments; Malloc_msg_buf sequence_length;
               Free_msg_buf; Free_messages];
     result := -1 |}.

Definition submitted (ioctl : i2c_rdwr_ioctl_data → Z) (sequence_length : Z)
    (d : i2c_rdwr_ioctl_data) : returned :=
  {| trace := [Malloc_messages (nmsgs d); Malloc_msg_buf sequence_length;
               Ioctl_I2C_RDWR d; Free_msg_buf; Free_messages];
     result := ioctl d |}.

(** The bytes the read messages of a list ask for. *)
Fixpoint read_total (ms : list i2c_msg) : Z :=
  match ms with
  | [] => 0
  | m :: ms' => (if flags m =? I2C_M_RD then len m else 0) + read_total ms'
  end.

(** Each read message points into [received_data] past what the read
    messages before it ask for; each write message points into [msg_buf]. *)
Definition placed (ms : list i2c_msg) : Prop :=
  ∀ (k : nat) (m : i2c_msg), ms !! k = Some m →
    if flags m =? I2C_M_RD then buf m = Received_data (read_total (take k ms))
    else ∃ o, buf m = Msg_buf o.

(** *** Sequences given by their segments

    A caller builds a sequence from segments: an address token and the
    tokens of its data, with [I2C_RESTART] between one segment and the
    next.  [layout] and [payload] say what such a sequence is meant to
    compile to. *)

Fixpoint encode (segs : list segment) : list Z :=
  match segs with
  | [] => []
  | (a, ds) :: more =>
      a :: ds ++ match more with
                 | [] => []
                 | _ :: _ => I2C_RESTART :: encode more
                 end
  end.

(** No token of the data is [I2C_RESTART]. *)
Definition clean (ds : list Z) : bool :=
  forallb (fun t => negb (t =? I2C_RESTART)) ds.

Definition all_clean (segs : list segment) : bool :=
  forallb (fun s => clean (snd s)) segs.

(** There is a segment, the data of every segment is clean, and the last
    segment has data. *)
Fixpoint well_formed (segs : list segment) : bool :=
  match segs with
  | [] => false
  | (_, ds) :: more =>
      clean ds && match more with
                  | [] => negb (bool_decide (ds = []))
                  | _ :: _ => well_formed more
                  end
  end.

(** The direction bit of an address token. *)
Definition reads (a : Z) : bool := Z.testbit a 0.

(** The message of the segment [(a, ds)] when [w] bytes were staged and [r]
    bytes were asked for before it. *)
Definition message (w r : Z) (s : segment) : i2c_msg :=
  {| addr := Z.shiftr (u8 (fst s)) 1;
     flags := if reads (fst s) then I2C_M_RD else 0;
     len := Z.of_nat (length (snd s));
     buf := if reads (fst s) then Received_data r else Msg_buf w |}.

(** The bytes the segment stages. *)
Definition staged (s : segment) : list Z :=
  if reads (fst s) then [] else u8 <$> snd s.

(** The bytes the segment asks for. *)
Definition asked (s : segment) : Z :=
  if reads (fst s) then Z.of_nat (length (snd s)) else 0.

Fixpoint layout (w r : Z) (segs : list segment) : list i2c_msg :=
  match segs with
  | [] => []
  | s :: more =>
      message w r s :: layout (w + Z.of_nat (length (staged s))) (r + asked s) more
  end.

Definition payload (segs : list segment) : list Z :=
  concat (staged <$> segs).

(** [m] carries the address and the direction of the address token [a]. *)
Definition decodes (a : Z) (m : i2c_msg) : Prop :=
  addr m = Z.shiftr (u8 a) 1 ∧ flags m = if reads a then I2C_M_RD else 0.

(** The message filled in for the last token [t] when the token before it
    is an [I2C_RESTART] that closed the segment of [m]. *)
Definition continued (t : Z) (m : i2c_msg) : i2c_msg :=
  {| addr := addr m;
     flags := flags m;
     len := len m + (if t =? I2C_RESTART then 0 else 1);
     buf := match buf m with
            | Msg_buf o => Msg_buf o
            | Received_data o => Received_data (o + len m)
            end |}.

(** How a sequence goes on after the encoding of its segments: not at
    all; with an [I2C_RESTART] as last token; or with an [I2C_RESTART] at
    index length-2 and one last token [t]. *)
Inductive ending : Type :=
  | At_end
  | Restart_last
  | Restart_then (t : Z).

Definition ending_tokens (e : ending) : list Z :=
  match e with
  | At_end => []
  | Restart_last => [I2C_RESTART]
  | Restart_then t => [I2C_RESTART; t]
  end.

(** The message the ending adds to the messages [ms] of the segments, and
    the byte it stages. *)
Definition ending_messages (e : ending) (ms : list i2c_msg) : list i2c_msg :=
  match e, list.last ms with
  | Restart_then t, Some m => [continued t m]
  | _, _ => []
  end.

Definition ending_bytes (e : ending) (ms : list i2c_msg) : list Z :=
  match e, list.last ms with
  | Restart_then t, Some m =>
      if (flags m =? 0) && negb (t =? I2C_RESTART) then [u8 t] else []
  | _, _ => []
  end.

(** The encoding of [segs] followed by the ending [e] is read by the loop
    as these segments: the data are clean, and when nothing follows the
    last segment it has data. *)
Definition parsed (segs : list segment) (e : ending) : bool :=
  match e with
  | At_end => well_formed segs
  | _ => negb (bool_decide (segs = [])) && all_clean segs
  end.

(** *** Sequences to run the statements on *)

(** [init_sequence1] and [pn_query] of [example.c]. *)
Definition init_sequence1 : list Z := [0x70; 0x80; 3].
Definition pn_query : list Z := [0x70; 0x8a; I2C_RESTART; 0x71; I2C_READ].

(** Forty-three one-byte writes to the device at 0x38, with a restart
    between each and the next. *)
Definition too_many : list Z :=
  0x70 :: 0x00 :: concat (replicate 42 [I2C_RESTART; 0x70; 0x00]).

End Vocabulary.

(** A choice of the two token values: bits 8 and 9 of a token, outside the
    eight bits of data. *)
Definition token_values : LSquaredC_h :=
  {| I2C_RESTART := 256; I2C_READ := 512 |}.

(** A kernel that carries out what it is given: the ioctl returns the
    number of messages. *)
Definition ioctl_done (d : i2c_rdwr_ioctl_data) : Z := nmsgs d.

(** A kernel that fails every transfer: the ioctl returns -1. *)
Definition ioctl_failed (d : i2c_rdwr_ioctl_data) : Z := -1.

(** ** Opening and closing the bus

    [i2c_open], [check_i2c_functionality] and [i2c_close] talk to the
    kernel through [open], [ioctl(I2C_FUNCS)] and [close].  The kernel is a
    parameter: what each call answers.  What the functions ask of it is
    recorded as a list of system calls. *)

Record kernel : Type := {
  (** [open(path, O_RDWR)]: a descriptor, or a negative number *)
  open_device : String.string → Z;
  (** [ioctl(fd, I2C_FUNCS, &funcs)]: what it returns, and what it leaves
      in [funcs] when it does not fail *)
  i2c_funcs : Z → Z * Z;
  (** [close(fd)] *)
  close_device : Z → Z
}.

Inductive syscall : Type :=
  | Sys_open (path : String.string)
  | Sys_i2c_funcs (fd : Z)
  | Sys_close (fd : Z).

Definition DEVICE_NAME_LENGTH : nat := 11.

(** From [<linux/i2c.h>]. *)
Definition I2C_FUNC_I2C : Z := 1.

(** [%d] of a value of type [int] *)
Definition decimal (z : Z) : String.string :=
  DecimalString.NilZero.string_of_int (Z.to_int z).

(** The characters [snprintf] leaves in a buffer of [size] bytes, before
    the terminating 0: those of the formatted text that fit. *)
Definition snprintf (size : nat) (formatted : String.string) : String.string :=
  String.substring 0 (size - 1) formatted.

(** What is formatted for ["/dev/i2c-%d"]. *)
Definition formatted_name (bus : Z) : String.string :=
  String.append "/dev/i2c-"%string (decimal bus).

Definition device_name (bus : Z) : String.string :=
  snprintf DEVICE_NAME_LENGTH (formatted_name bus).

Definition check_i2c_functionality (k : kernel) (handle : Z) : Z :=
  let (rc, funcs) := i2c_funcs k handle in
  if rc <? 0 then 0 else u32 (Z.land funcs I2C_FUNC_I2C).

Record opening : Type := {
  calls : list syscall;
  returned_handle : Z
}.

Definition i2c_open (k : kernel) (bus : Z) : opening :=
  if 9 <? bus then {| calls := []; returned_handle := -1 |}
  else
    let name := device_name bus in
    let handle := open_device k name in
    if handle <? 0 then {| calls := [Sys_open name]; returned_handle := handle |}
    else if check_i2c_functionality k handle =? 0 then
      {| calls := [Sys_open name; Sys_i2c_funcs handle]; returned_handle := -1 |}
    else
      {| calls := [Sys_open name; Sys_i2c_funcs handle]; returned_handle := handle |}.

Definition i2c_close (k : kernel) (handle : Z) : opening :=
  {| calls := [Sys_close handle]; returned_handle := close_device k handle |}.

(** For every [uint8_t] bus number: whether it passes the sanity check,
    whether its name fits the buffer, and what the buffer then holds. *)
Definition name_checked (bus : Z) : bool :=
  Bool.eqb (bus <=? 9)
           (String.length (formatted_name bus) <? DEVICE_NAME_LENGTH)%nat &&
  (if bus <=? 9 then String.eqb (device_name bus) (formatted_name bus) else true) &&
  forallb (fun bus' => implb (String.eqb (formatted_name bus) (formatted_name bus'))
                             (bus =? bus'))
          (seqZ 0 10).

(** Two kernels to run the statements on.  Both have one bus, number 1,
    and open it as descriptor 3; on the first the adapter reports
    [I2C_FUNC_I2C] among its functions, on the second it reports SMBus
    functions only. *)
Definition kernel_with_i2c : kernel :=
  {| open_device := fun path => if String.eqb path "/dev/i2c-1" then 3 else -1;
     i2c_funcs := fun _ => (0, 0x0eff0009);
     close_device := fun _ => 0 |}.

Definition kernel_with_smbus_only : kernel :=
  {| open_device := fun path => if String.eqb path "/dev/i2c-1" then 3 else -1;
     i2c_funcs := fun _ => (0, 0x0eff0008);
     close_device := fun _ => 0 |}.

(** ** Vocabulary of the further statements *)

(** Each write message of [ms] points at bytes of [msg_buf] that were
    staged: its range ends within the first [n] bytes. *)
Definition write_ranges_within (n : Z) (ms : list i2c_msg) : Prop :=
  Forall (fun m => flags m = 0 →
            ∃ o, buf m = Msg_buf o ∧ 0 <= o ∧ 0 <= len m ∧ o + len m <= n) ms.

(** Each read message of [ms] asks for bytes of [received_data] within the
    first [n]. *)
Definition read_ranges_within (n : Z) (ms : list i2c_msg) : Prop :=
  Forall (fun m => flags m = I2C_M_RD →
            ∃ o, buf m = Received_data o ∧ 0 <= o ∧ 0 <= len m ∧ o + len m <= n) ms.

Section Documented.
Context `{LSquaredC_h}.

(** The number of [I2C_READ] tokens of a list. *)
Fixpoint read_tokens (l : list Z) : Z :=
  match l with
  | [] => 0
  | t :: l' => (if t =? I2C_READ then 1 else 0) + read_tokens l'
  end.

Definition is_byte (t : Z) : bool := (0 <=? t) && (t <? 256).

(** A segment as the comment on [i2c_send_sequence] describes it: an
    address byte, then bytes to be written if it writes, [I2C_READ] tokens
    if it reads. *)
Definition documented_segment (s : segment) : bool :=
  is_byte (fst s) &&
  (if reads (fst s) then forallb (fun t => t =? I2C_READ) (snd s)
   else forallb is_byte (snd s)).

Definition documented (segs : list segment) : bool :=
  forallb documented_segment segs.

(** The segment a message stands for: the address byte from the device
    address and the direction, the data from [msg_buf] for a write, one
    [I2C_READ] per byte asked for a read. *)
Definition segment_of (bs : list Z) (m : i2c_msg) : segment :=
  (2 * addr m + (if flags m =? I2C_M_RD then 1 else 0),
   match buf m with
   | Msg_buf o => take (Z.to_nat (len m)) (drop (Z.to_nat o) bs)
   | Received_data _ => replicate (Z.to_nat (len m)) I2C_READ
   end).

Definition decompile (ms : list i2c_msg) (bs : list Z) : list segment :=
  segment_of bs <$> ms.

End Documented.

(** ** Tactics *)

(** Settles the comparisons of the goal that linear arithmetic decides. *)
Ltac tests :=
  repeat match goal with
  | |- context [Z.ltb ?a ?b] =>
      first [ rewrite (proj2 (Z.ltb_lt a b)) by lia
            | rewrite (proj2 (Z.ltb_ge a b)) by lia ]
  | |- context [Z.leb ?a ?b] =>
      first [ rewrite (proj2 (Z.leb_le a b)) by lia
            | rewrite (proj2 (Z.leb_gt a b)) by lia ]
  | |- context [Z.eqb ?a ?b] =>
      first [ rewrite (proj2 (Z.eqb_eq a b)) by lia
            | rewrite (proj2 (Z.eqb_neq a b)) by lia ]
  end.

(** * Proofs *)

(** ** Arithmetic and memory *)

Lemma u32_small (z : Z) : 0 <= z < 2 ^ 32 → u32 z = z.
Proof. intros Hz. unfold u32. apply Z.mod_small. exact Hz. Qed.

Lemma u8_range (z : Z) : 0 <= u8 z < 256.
Proof. unfold u8. change (2 ^ 8) with 256. apply Z.mod_pos_bound. lia. Qed.

Lemma u16_small (z : Z) : 0 <= z < 2 ^ 16 → u16 z = z.
Proof. intros Hz. unfold u16. apply Z.mod_small. exact Hz. Qed.

Lemma u16_range (z : Z) : 0 <= u16 z < 2 ^ 16.
Proof. unfold u16. apply Z.mod_pos_bound. lia. Qed.

Lemma u16_le (z : Z) : 0 <= z → u16 z <= z.
Proof. intros Hz. unfold u16. apply Z.mod_le; lia. Qed.

Lemma u8_small (z : Z) : 0 <= z < 256 → u8 z = z.
Proof. intros Hz. unfold u8. apply Z.mod_small. change (2 ^ 8) with 256. exact Hz. Qed.

(** Bit 0 of a token survives the conversion to [uint8_t]. *)
Lemma u8_bit0 (z : Z) : Z.land (u8 z) 1 = if Z.testbit z 0 then 1 else 0.
Proof.
  change 1 with (Z.ones 1) at 1. rewrite Z.land_ones by lia.
  change (2 ^ 1) with 2. rewrite <- Z.bit0_mod.
  unfold u8. rewrite Z.mod_pow2_bits_low by lia.
  destruct (Z.testbit z 0); reflexivity.
Qed.

Lemma cells_length {A : Type} (n : Z) (xs : list A) :
  Z.of_nat (length xs) <= n → Z.of_nat (length (cells n xs)) = n.
Proof.
  intros Hn. unfold cells.
  rewrite length_app, length_fmap, length_replicate. lia.
Qed.

Lemma cells_write {A : Type} (n : Z) (xs : list A) (x : A) :
  Z.of_nat (length xs) < n →
  <[length xs := Some x]> (cells n xs) = cells n (xs ++ [x]).
Proof.
  intros Hn. unfold cells.
  replace (Z.to_nat n - length xs)%nat with (S (Z.to_nat n - length (xs ++ [x])))
    by (rewrite length_app; simpl; lia).
  rewrite insert_app_r_alt by (rewrite length_fmap; lia).
  rewrite length_fmap, Nat.sub_diag. simpl.
  rewrite fmap_app, <- app_assoc. reflexivity.
Qed.

Lemma token_at (pre rest : list Z) (t : Z) (n j : Z) :
  n = Z.of_nat (length (pre ++ t :: rest)) → j = Z.of_nat (length pre) →
  token (pre ++ t :: rest) n j = Ok t.
Proof.
  intros -> ->. unfold token.
  rewrite length_app. simpl length. tests. simpl.
  rewrite Nat2Z.id, list_lookup_middle by reflexivity. reflexivity.
Qed.

(** ** The loop body on the locals that stand for a [progress] *)

Section Body.
Context `{LSquaredC_h}.
Variables (sequence : list Z) (sequence_length number_of_segments : Z).
Hypothesis length_fits : 2 <= sequence_length < 2 ^ 32.

Local Abbreviation locals := (state_of number_of_segments sequence_length).

Lemma store_byte_locals (b : Z) (p : progress) (j : Z) :
  Z.of_nat (length (written p)) < sequence_length →
  store_byte b (locals p j) =
  Ok (locals {| segments := segments p; written := written p ++ [b];
                seg_base := seg_base p; seg_size := seg_size p;
                seg_address := seg_address p; seg_rw := seg_rw p;
                read_offset := read_offset p |} j).
Proof.
  intros Hw. unfold store_byte, state_of. cbn [msg_cur_buf_ptr msg_buf].
  rewrite cells_length by lia. tests. cbn [andb].
  rewrite Nat2Z.id, cells_write by lia.
  unfold state_of. cbn [segments written seg_base seg_size seg_address seg_rw read_offset].
  rewrite length_app, Nat2Z.inj_add. reflexivity.
Qed.

Lemma store_message_locals (m : i2c_msg) (p : progress) (j : Z) :
  Z.of_nat (length (segments p)) < number_of_segments →
  store_message (stored m) (locals p j) =
  Ok (locals {| segments := segments p ++ [m]; written := written p;
                seg_base := seg_base p; seg_size := seg_size p;
                seg_address := seg_address p; seg_rw := seg_rw p;
                read_offset := read_offset p |} j).
Proof.
  intros Hs. unfold store_message, state_of. cbn [current_message messages].
  rewrite cells_length by (rewrite length_fmap; lia). tests. cbn [andb].
  rewrite Nat2Z.id, <- (length_fmap stored (segments p)).
  rewrite cells_write by (rewrite length_fmap; lia).
  unfold state_of. cbn [segments written seg_base seg_size seg_address seg_rw read_offset].
  rewrite length_fmap, fmap_app, length_app, Nat2Z.inj_add. reflexivity.
Qed.

(** The data half of the body, for a token that is not [I2C_RESTART]. *)
Lemma absorb_locals (t : Z) (p : progress) (j : Z) :
  0 <= seg_size p < 2 ^ 32 - 1 →
  Z.of_nat (length (written (absorb t p))) <= sequence_length →
  (st ← (if rw (locals p j) =? WRITING then store_byte (u8 t) (locals p j)
         else Ok (locals p j));
   Ok (count_byte st)) = Ok (locals (absorb t p) j).
Proof.
  intros Hsize Hw. unfold absorb in *. cbn [written rw state_of] in *.
  destruct (seg_rw p =? WRITING) eqn:Hrw.
  - rewrite length_app, Nat2Z.inj_add in Hw. simpl in Hw.
    rewrite store_byte_locals by lia. cbn.
    unfold count_byte, state_of. cbn. rewrite u32_small by lia. reflexivity.
  - cbn. unfold count_byte, state_of. cbn. rewrite u32_small by lia. reflexivity.
Qed.

(** The closing half: the message is stored, then [received_data] moves. *)
Lemma store_segment_locals (p : progress) (j : Z) :
  Z.of_nat (length (segments (close p))) <= number_of_segments →
  store_message (segment_message (locals p j)) (locals p j) =
  Ok (locals {| segments := segments p ++ [message_of p];
                written := written p;
                seg_base := seg_base p; seg_size := seg_size p;
                seg_address := seg_address p; seg_rw := seg_rw p;
                read_offset := read_offset p |} j).
Proof.
  intros Hs. unfold close in Hs. cbn [segments] in Hs.
  rewrite length_app, Nat2Z.inj_add in Hs. simpl in Hs.
  change (segment_message (locals p j)) with (stored (message_of p)).
  apply store_message_locals. lia.
Qed.

Lemma advance_locals (p : progress) (j : Z) :
  advance_received_data
    (locals {| segments := segments p ++ [message_of p];
               written := written p;
               seg_base := seg_base p; seg_size := seg_size p;
               seg_address := seg_address p; seg_rw := seg_rw p;
               read_offset := read_offset p |} j) = locals (close p) j.
Proof. reflexivity. Qed.

Lemma begin_segment_locals (a : Z) (p : progress) (j k : Z) :
  begin_segment a k (locals p j) = locals (open a p) k.
Proof. reflexivity. Qed.

Lemma next_token_locals (p : progress) (j : Z) :
  0 <= j < 2 ^ 32 - 1 → next_token (locals p j) = locals p (j + 1).
Proof.
  intros Hj. unfold next_token, state_of. cbn. rewrite u32_small by lia. reflexivity.
Qed.

Lemma locals_i (p : progress) (j : Z) : i (locals p j) = j.
Proof. reflexivity. Qed.

(** A data token that is not the last one. *)
Lemma loop_body_data (t : Z) (p : progress) (j : Z) :
  token sequence sequence_length j = Ok t → t ≠ I2C_RESTART →
  1 <= j → j + 1 < sequence_length →
  0 <= seg_size p < 2 ^ 32 - 1 →
  Z.of_nat (length (written (absorb t p))) <= sequence_length →
  loop_body sequence sequence_length (locals p j) = Ok (locals (absorb t p) (j + 1)).
Proof.
  intros Ht Hne Hj Hlast Hsize Hw. unfold loop_body.
  rewrite locals_i, Ht. cbn [mbind outcome_bind]. tests. cbn [negb].
  rewrite absorb_locals by assumption. cbn [mbind outcome_bind].
  rewrite locals_i, u32_small by lia. tests. cbn [orb mbind outcome_bind].
  rewrite next_token_locals by lia. reflexivity.
Qed.

(** The last token, whatever it is. *)
Lemma loop_body_last (t : Z) (p : progress) (j : Z) :
  token sequence sequence_length j = Ok t →
  j = sequence_length - 1 →
  0 <= seg_size p < 2 ^ 32 - 1 →
  Z.of_nat (length (written (take_token t p))) <= sequence_length →
  Z.of_nat (length (segments (close (take_token t p)))) <= number_of_segments →
  loop_body sequence sequence_length (locals p j) =
  Ok (locals (close (take_token t p)) sequence_length).
Proof.
  intros Ht Hj Hsize Hw Hs. unfold loop_body, take_token in *.
  rewrite locals_i, Ht. cbn [mbind outcome_bind].
  destruct (t =? I2C_RESTART) eqn:Hr; cbn [negb mbind outcome_bind].
  - rewrite locals_i. cbn [orb].
    rewrite store_segment_locals by assumption. cbn [mbind outcome_bind].
    rewrite !advance_locals.
    rewrite locals_i, (u32_small (sequence_length - 2)) by lia. tests.
    cbn [mbind outcome_bind]. rewrite next_token_locals by lia.
    f_equal. f_equal. lia.
  - rewrite absorb_locals by assumption. cbn [mbind outcome_bind].
    rewrite locals_i, (u32_small (sequence_length - 1)) by lia. tests. cbn [orb].
    rewrite store_segment_locals by assumption. cbn [mbind outcome_bind].
    rewrite !advance_locals.
    rewrite locals_i, (u32_small (sequence_length - 2)) by lia. tests.
    cbn [mbind outcome_bind]. rewrite next_token_locals by lia.
    f_equal. f_equal. lia.
Qed.

(** [I2C_RESTART] with at least two tokens after it: a new segment begins. *)
Lemma loop_body_restart_open (a : Z) (p : progress) (j : Z) :
  token sequence sequence_length j = Ok I2C_RESTART →
  token sequence sequence_length (j + 1) = Ok a →
  1 <= j → j + 2 < sequence_length →
  Z.of_nat (length (segments (close p))) <= number_of_segments →
  loop_body sequence sequence_length (locals p j) =
  Ok (locals (open a (close p)) (j + 2)).
Proof.
  intros Ht Ha Hj Hlast Hs. unfold loop_body.
  rewrite locals_i, Ht. cbn [mbind outcome_bind]. tests.
  cbn [negb orb mbind outcome_bind].
  rewrite store_segment_locals by assumption. cbn [mbind outcome_bind].
  rewrite !advance_locals.
  rewrite locals_i, (u32_small (sequence_length - 2)), (u32_small (j + 1)) by lia.
  tests. rewrite Ha. cbn [mbind outcome_bind].
  rewrite begin_segment_locals, next_token_locals by lia.
  f_equal. f_equal. lia.
Qed.

(** [I2C_RESTART] as the last token but one: the segment is closed and no
    address is read. *)
Lemma loop_body_restart_tail (p : progress) (j : Z) :
  token sequence sequence_length j = Ok I2C_RESTART →
  1 <= j → j = sequence_length - 2 →
  Z.of_nat (length (segments (close p))) <= number_of_segments →
  loop_body sequence sequence_length (locals p j) = Ok (locals (close p) (j + 1)).
Proof.
  intros Ht Hj Hlast Hs. unfold loop_body.
  rewrite locals_i, Ht. cbn [mbind outcome_bind]. tests.
  cbn [negb orb mbind outcome_bind].
  rewrite store_segment_locals by assumption. cbn [mbind outcome_bind].
  rewrite !advance_locals.
  rewrite locals_i, (u32_small (sequence_length - 2)) by lia.
  tests. cbn [mbind outcome_bind].
  rewrite next_token_locals by lia. reflexivity.
Qed.

End Body.

(** ** The walk over the token list *)

Section Walk.
Context `{LSquaredC_h}.

Lemma walk_data (t a : Z) (r : list Z) (p : progress) :
  t ≠ I2C_RESTART → walk (t :: a :: r) p = walk (a :: r) (absorb t p).
Proof. intros Hne. cbn [walk]. tests. reflexivity. Qed.

Lemma walk_restart_open (a b : Z) (r : list Z) (p : progress) :
  walk (I2C_RESTART :: a :: b :: r) p = walk (b :: r) (open a (close p)).
Proof. cbn [walk]. rewrite Z.eqb_refl. reflexivity. Qed.

Lemma walk_restart_tail (t : Z) (p : progress) :
  walk [I2C_RESTART; t] p = walk [t] (close p).
Proof. cbn [walk]. rewrite Z.eqb_refl. reflexivity. Qed.

(** Induction along the cases of [walk]. *)
Lemma walk_elim (P : list Z → progress → progress → Prop) :
  (∀ p, P [] p p) →
  (∀ t p, P [t] p (close (take_token t p))) →
  (∀ t a r p, t ≠ I2C_RESTART →
     P (a :: r) (absorb t p) (walk (a :: r) (absorb t p)) →
     P (t :: a :: r) p (walk (a :: r) (absorb t p))) →
  (∀ a b r p,
     P (b :: r) (open a (close p)) (walk (b :: r) (open a (close p))) →
     P (I2C_RESTART :: a :: b :: r) p (walk (b :: r) (open a (close p)))) →
  (∀ t p,
     P [t] (close p) (walk [t] (close p)) →
     P [I2C_RESTART; t] p (walk [t] (close p))) →
  ∀ rest p, P rest p (walk rest p).
Proof.
  intros Hnil Hlast Hdata Hopen Htail rest.
  assert (Hall : ∀ (n : nat) (l : list Z) (p : progress),
             (length l <= n)%nat → P l p (walk l p)).
  { induction n as [|n IH]; intros l p Hl.
    - destruct l; [apply Hnil | simpl in Hl; lia].
    - destruct l as [|t [|a r]]; [apply Hnil | apply Hlast | ].
      simpl in Hl. destruct (Z.eq_dec t I2C_RESTART) as [->|Hne].
      + destruct r as [|b r].
        * rewrite walk_restart_tail. apply Htail, IH. simpl. lia.
        * rewrite walk_restart_open. apply Hopen, IH. simpl in *. lia.
      + rewrite walk_data by assumption. apply Hdata; [assumption|].
        apply IH. simpl. lia. }
  intros p. apply (Hall (length rest)). lia.
Qed.

(** What every step keeps, the walk keeps. *)
Lemma walk_invariant (I : progress → Prop) :
  (∀ t p, I p → I (absorb t p)) →
  (∀ p, I p → I (close p)) →
  (∀ a p, I (close p) → I (open a (close p))) →
  ∀ rest p, I p → I (walk rest p).
Proof.
  intros Habsorb Hclose Hopen.
  apply (walk_elim (λ _ p q, I p → I q)).
  - auto.
  - intros t p Hp. apply Hclose. unfold take_token.
    destruct (t =? I2C_RESTART); auto.
  - auto.
  - auto.
  - auto.
Qed.

(** Nothing that was produced is ever taken back. *)
Lemma walk_grows (rest : list Z) (p : progress) :
  (length (segments p) <= length (segments (walk rest p)))%nat ∧
  (length (written p) <= length (written (walk rest p)))%nat.
Proof.
  apply (walk_elim (λ _ p q,
    (length (segments p) <= length (segments q))%nat ∧
    (length (written p) <= length (written q))%nat)); clear rest p.
  - intros p. lia.
  - intros t p. unfold close, take_token, absorb. cbn [segments written].
    rewrite length_app. simpl.
    destruct (t =? I2C_RESTART); cbn [segments written]; [lia|].
    destruct (seg_rw p =? WRITING); [rewrite length_app; simpl|]; lia.
  - intros t a r p _. unfold absorb at 1 3. cbn [segments written].
    destruct (seg_rw p =? WRITING); [rewrite length_app; simpl|]; lia.
  - intros a b r p. unfold open at 1 3, close at 1 3. cbn [segments written].
    rewrite length_app. simpl. lia.
  - intros t p. unfold close at 1 3. cbn [segments written].
    rewrite length_app. simpl. lia.
Qed.

End Walk.

(** ** The loop computes the walk *)

Section Refinement.
Context `{LSquaredC_h}.
Variables (sequence : list Z) (sequence_length number_of_segments : Z).
Hypothesis length_agrees : sequence_length = Z.of_nat (length sequence).
Hypothesis length_fits : 2 <= sequence_length < 2 ^ 32.

Local Abbreviation locals := (state_of number_of_segments sequence_length).
Local Abbreviation run := (fun fuel => loop fuel sequence sequence_length).

Lemma loop_done (fuel : nat) (st : state) :
  sequence_length <= i st → run fuel st = Ok st.
Proof. intros Hi. destruct fuel; cbn [loop]; tests; reflexivity. Qed.

Lemma loop_step (fuel : nat) (st : state) :
  i st < sequence_length →
  run (S fuel) st = loop_body sequence sequence_length st ≫= run fuel.
Proof. intros Hi. cbn [loop]. tests. reflexivity. Qed.

Lemma loop_walk (rest : list Z) (p : progress) :
  ∀ (pre : list Z) (fuel : nat),
    sequence = pre ++ rest → (1 <= length pre)%nat →
    0 <= seg_size p → seg_size p + Z.of_nat (length rest) < 2 ^ 32 →
    Z.of_nat (length (written (walk rest p))) <= sequence_length →
    Z.of_nat (length (segments (walk rest p))) <= number_of_segments →
    (length rest <= fuel)%nat →
    run fuel (locals p (Z.of_nat (length pre))) =
    Ok (locals (walk rest p) sequence_length).
Proof.
  apply (walk_elim (λ rest p q, ∀ (pre : list Z) (fuel : nat),
    sequence = pre ++ rest → (1 <= length pre)%nat →
    0 <= seg_size p → seg_size p + Z.of_nat (length rest) < 2 ^ 32 →
    Z.of_nat (length (written q)) <= sequence_length →
    Z.of_nat (length (segments q)) <= number_of_segments →
    (length rest <= fuel)%nat →
    run fuel (locals p (Z.of_nat (length pre))) = Ok (locals q sequence_length)));
    clear rest p.
  - intros p pre fuel Hseq Hpre Hs0 Hs1 Hw Hm Hfuel.
    rewrite Hseq, length_app in length_agrees. simpl in length_agrees.
    replace (Z.of_nat (length pre)) with sequence_length by lia.
    apply loop_done. cbn. lia.
  - intros t p pre fuel Hseq Hpre Hs0 Hs1 Hw Hm Hfuel.
    pose proof length_agrees as Hlen.
    rewrite Hseq, length_app in Hlen. simpl in Hlen, Hs1, Hfuel.
    destruct fuel as [|fuel]; [lia|].
    rewrite loop_step by (cbn; lia).
    rewrite (loop_body_last sequence sequence_length number_of_segments length_fits t);
      try assumption; try lia.
    + cbn [mbind outcome_bind]. apply loop_done. cbn. lia.
    + subst sequence. apply token_at; [assumption | reflexivity].
  - intros t a r p Hne IH pre fuel Hseq Hpre Hs0 Hs1 Hw Hm Hfuel.
    pose proof length_agrees as Hlen.
    rewrite Hseq, length_app in Hlen. simpl in Hlen, Hs1, Hfuel.
    destruct fuel as [|fuel]; [lia|].
    rewrite loop_step by (cbn; lia).
    rewrite (loop_body_data sequence sequence_length number_of_segments length_fits t);
      try assumption; try lia.
    + cbn [mbind outcome_bind].
      replace (Z.of_nat (length pre) + 1) with (Z.of_nat (length (pre ++ [t])))
        by (rewrite length_app; simpl; lia).
      apply IH; try assumption; try (rewrite <- app_assoc; exact Hseq);
        rewrite ?length_app; cbn [absorb open close seg_size]; simpl length; lia.
    + subst sequence. apply token_at; [assumption | reflexivity].
    + pose proof (walk_grows (a :: r) (absorb t p)) as [_ Hg]. lia.
  - intros a b r p IH pre fuel Hseq Hpre Hs0 Hs1 Hw Hm Hfuel.
    pose proof length_agrees as Hlen.
    rewrite Hseq, length_app in Hlen. simpl in Hlen, Hs1, Hfuel.
    destruct fuel as [|fuel]; [lia|].
    rewrite loop_step by (cbn; lia).
    rewrite (loop_body_restart_open sequence sequence_length number_of_segments
               length_fits a); try lia.
    + cbn [mbind outcome_bind].
      replace (Z.of_nat (length pre) + 2)
        with (Z.of_nat (length (pre ++ [I2C_RESTART; a])))
        by (rewrite length_app; simpl; lia).
      apply IH; try assumption; try (rewrite <- app_assoc; exact Hseq);
        rewrite ?length_app; cbn [absorb open close seg_size]; simpl length; lia.
    + subst sequence. apply token_at; [assumption | reflexivity].
    + subst sequence.
      change (pre ++ I2C_RESTART :: a :: b :: r)
        with (pre ++ [I2C_RESTART] ++ a :: b :: r).
      rewrite app_assoc. apply token_at.
      * rewrite <- app_assoc. exact length_agrees.
      * rewrite length_app. simpl. lia.
    + pose proof (walk_grows (b :: r) (open a (close p))) as [Hg _].
      cbn [open segments] in Hg. lia.
  - intros t p IH pre fuel Hseq Hpre Hs0 Hs1 Hw Hm Hfuel.
    pose proof length_agrees as Hlen.
    rewrite Hseq, length_app in Hlen. simpl in Hlen, Hs1, Hfuel.
    destruct fuel as [|fuel]; [lia|].
    rewrite loop_step by (cbn; lia).
    rewrite (loop_body_restart_tail sequence sequence_length number_of_segments
               length_fits); try lia.
    + cbn [mbind outcome_bind].
      replace (Z.of_nat (length pre) + 1)
        with (Z.of_nat (length (pre ++ [I2C_RESTART])))
        by (rewrite length_app; simpl; lia).
      apply IH; try assumption; try (rewrite <- app_assoc; exact Hseq);
        rewrite ?length_app; cbn [absorb open close seg_size]; simpl length; lia.
    + subst sequence. apply token_at; [assumption | reflexivity].
    + pose proof (walk_grows [t] (close p)) as [Hg _]. lia.
Qed.

End Refinement.

(** ** [count_segments] counts the restarts *)

Section Counting.
Context `{LSquaredC_h}.

Lemma restarts_bounds (l : list Z) : 0 <= restarts l <= Z.of_nat (length l).
Proof.
  induction l as [|t l IH]; simpl restarts; simpl length; [lia|].
  destruct (t =? I2C_RESTART); lia.
Qed.

Lemma count_segments_for_restarts (rest : list Z) :
  ∀ (pre : list Z) (n : Z) (fuel : nat) (sequence_length : Z),
    sequence_length = Z.of_nat (length (pre ++ rest)) → sequence_length < 2 ^ 32 →
    0 <= n → n + Z.of_nat (length rest) < 2 ^ 32 → (length rest <= fuel)%nat →
    count_segments_for fuel (pre ++ rest) sequence_length (Z.of_nat (length pre)) n =
    Ok (n + restarts rest).
Proof.
  induction rest as [|t rest IH]; intros pre n fuel sequence_length Hlen Hfit Hn Hsum Hfuel.
  - rewrite length_app in Hlen. simpl in Hlen. simpl restarts.
    destruct fuel; cbn [count_segments_for]; tests; f_equal; lia.
  - pose proof Hlen as Hlen'. rewrite length_app in Hlen'. simpl in Hlen', Hsum, Hfuel.
    destruct fuel as [|fuel]; [lia|]. cbn [count_segments_for]. tests.
    rewrite token_at by (assumption || reflexivity). cbn [mbind outcome_bind].
    pose proof (restarts_bounds rest) as Hr.
    rewrite u32_small by lia.
    replace (Z.of_nat (length pre) + 1) with (Z.of_nat (length (pre ++ [t])))
      by (rewrite length_app; simpl; lia).
    rewrite (cons_middle t pre rest), app_assoc.
    simpl restarts. destruct (t =? I2C_RESTART).
    + rewrite u32_small by lia. rewrite IH; try lia.
      * f_equal. lia.
      * rewrite <- app_assoc. exact Hlen.
    + rewrite IH; try lia.
      * f_equal.
      * rewrite <- app_assoc. exact Hlen.
Qed.

Lemma count_segments_restarts (sequence : list Z) (sequence_length : Z) :
  fits sequence sequence_length →
  count_segments sequence sequence_length = Ok (1 + restarts (tail sequence)).
Proof.
  intros [Hlen Hfit]. unfold count_segments. destruct sequence as [|a rest].
  - simpl in Hlen. subst sequence_length. reflexivity.
  - simpl tail. simpl in Hlen.
    apply (count_segments_for_restarts rest [a] 1); simpl; lia.
Qed.

End Counting.

(** ** How much a walk can produce *)

Section Bounds.
Context `{LSquaredC_h}.

Lemma restarts_cons (t : Z) (l : list Z) :
  restarts (t :: l) = (if t =? I2C_RESTART then 1 else 0) + restarts l.
Proof. reflexivity. Qed.

Lemma restarts_one (t : Z) : restarts [t] = if t =? I2C_RESTART then 1 else 0.
Proof. simpl. lia. Qed.

Lemma walk_segments_bound (rest : list Z) (p : progress) :
  Z.of_nat (length (segments (walk rest p))) <=
  Z.of_nat (length (segments p)) + 1 + restarts rest.
Proof.
  apply (walk_elim (λ rest p q,
    Z.of_nat (length (segments q)) <=
    Z.of_nat (length (segments p)) + 1 + restarts rest)); clear rest p.
  - intros p. simpl. lia.
  - intros t p. pose proof (restarts_bounds [t]).
    unfold close, take_token, absorb. cbn [segments]. rewrite length_app.
    destruct (t =? I2C_RESTART); cbn [segments length]; lia.
  - intros t a r p Hne IH. cbn [absorb segments] in IH.
    rewrite (restarts_cons t). tests. lia.
  - intros a b r p IH. cbn [open close segments] in IH.
    rewrite length_app in IH. cbn [length] in IH.
    rewrite (restarts_cons I2C_RESTART), (restarts_cons a), Z.eqb_refl.
    destruct (a =? I2C_RESTART); lia.
  - intros t p IH. cbn [close segments] in IH.
    rewrite length_app in IH. cbn [length] in IH.
    rewrite (restarts_cons I2C_RESTART), Z.eqb_refl. lia.
Qed.

(** Every restart followed by a token that is none: each one closes a
    segment, and the last token closes one more. *)
Lemma walk_segments_exact (rest : list Z) (p : progress) :
  rest ≠ [] → followed rest = true →
  Z.of_nat (length (segments (walk rest p))) =
  Z.of_nat (length (segments p)) + 1 + restarts rest.
Proof.
  apply (walk_elim (λ rest p q,
    rest ≠ [] → followed rest = true →
    Z.of_nat (length (segments q)) =
    Z.of_nat (length (segments p)) + 1 + restarts rest)); clear rest p.
  - intros p Hne. congruence.
  - intros t p _. rewrite restarts_one. cbn [followed]. unfold take_token.
    destruct (t =? I2C_RESTART); [discriminate|]. intros _.
    cbn [close absorb segments]. rewrite length_app. simpl. lia.
  - intros t a r p Hne IH _ Hf.
    change (followed (t :: a :: r))
      with ((if t =? I2C_RESTART then negb (a =? I2C_RESTART) else true)
            && followed (a :: r)) in Hf.
    rewrite (proj2 (Z.eqb_neq t I2C_RESTART) Hne) in Hf. cbn [andb] in Hf.
    rewrite (restarts_cons t). tests. cbn [absorb segments] in IH.
    rewrite IH; [lia | discriminate | exact Hf].
  - intros a b r p IH _ Hf.
    change (followed (I2C_RESTART :: a :: b :: r))
      with ((if I2C_RESTART =? I2C_RESTART then negb (a =? I2C_RESTART) else true)
            && ((if a =? I2C_RESTART then negb (b =? I2C_RESTART) else true)
                && followed (b :: r))) in Hf.
    rewrite Z.eqb_refl in Hf.
    destruct (a =? I2C_RESTART) eqn:Ha; [discriminate|]. cbn [negb andb] in Hf.
    rewrite (restarts_cons I2C_RESTART), (restarts_cons a), Z.eqb_refl, Ha.
    cbn [open close segments] in IH. rewrite length_app in IH. cbn [length] in IH.
    rewrite IH; [lia | discriminate | exact Hf].
  - intros t p IH _ Hf. cbn [followed] in Hf. rewrite Z.eqb_refl in Hf.
    destruct (t =? I2C_RESTART) eqn:Ht; [discriminate|].
    rewrite (restarts_cons I2C_RESTART), Z.eqb_refl.
    cbn [close segments] in IH. rewrite length_app in IH. cbn [length] in IH.
    rewrite IH; [lia | discriminate | ].
    cbn [followed]. rewrite Ht. reflexivity.
Qed.

(** At most one byte is staged per token. *)
Lemma walk_written_bound (rest : list Z) (p : progress) :
  (length (written (walk rest p)) <= length (written p) + length rest)%nat.
Proof.
  apply (walk_elim (λ rest p q,
    (length (written q) <= length (written p) + length rest)%nat)); clear rest p.
  - intros p. lia.
  - intros t p. unfold close, take_token, absorb. cbn [written].
    destruct (t =? I2C_RESTART); cbn [written length]; [lia|].
    destruct (seg_rw p =? WRITING); [rewrite length_app|]; simpl; lia.
  - intros t a r p Hne IH. unfold absorb in IH at 2. cbn [written] in IH.
    destruct (seg_rw p =? WRITING); [rewrite length_app in IH|]; simpl in *; lia.
  - intros a b r p IH. cbn [open close written] in IH. simpl in *. lia.
  - intros t p IH. cbn [close written] in IH. simpl in *. lia.
Qed.

End Bounds.

(** ** What a call returns *)

Section Returns.
Context `{LSquaredC_h}.
Variable ioctl : i2c_rdwr_ioctl_data → Z.

(** The pass over an accepted sequence ends, without a fault, in the locals
    that stand for the walk over the tokens after the first. *)
Lemma compile_walk (a : Z) (rest : list Z) (sequence_length number_of_segments : Z) :
  fits (a :: rest) sequence_length → rest ≠ [] →
  1 + restarts rest <= number_of_segments →
  compile (a :: rest) sequence_length number_of_segments =
  Ok (state_of number_of_segments sequence_length (walk rest (start a)) sequence_length).
Proof.
  intros [Hlen Hfit] Hrest Hn. unfold compile.
  rewrite (token_at [] rest a) by (assumption || reflexivity).
  cbn [mbind outcome_bind].
  assert (Hlong : 2 <= sequence_length < 2 ^ 32).
  { destruct rest; [congruence|]. simpl in Hlen. lia. }
  replace (initial_state number_of_segments a sequence_length)
    with (state_of number_of_segments sequence_length (start a)
            (Z.of_nat (length [a]))).
  2:{ unfold initial_state, state_of, start, cells. cbn.
      rewrite !Nat.sub_0_r. reflexivity. }
  pose proof (walk_segments_bound rest (start a)) as Hs.
  pose proof (walk_written_bound rest (start a)) as Hw.
  simpl in Hlen, Hs, Hw.
  apply (loop_walk (a :: rest)); try assumption; try reflexivity; simpl; lia.
Qed.

Lemma i2c_send_sequence_accepted (h a : Z) (rest : list Z) (sequence_length : Z) :
  fits (a :: rest) sequence_length → rest ≠ [] →
  1 + restarts rest <= I2C_RDRW_IOCTL_MAX_MSGS →
  i2c_send_sequence ioctl h (a :: rest) sequence_length =
  Ok (submitted ioctl sequence_length
        {| handle := h;
           msgs := cells (1 + restarts rest)
                     (stored <$> segments (walk rest (start a)));
           nmsgs := 1 + restarts rest;
           write_data := cells sequence_length (written (walk rest (start a))) |}).
Proof.
  intros Hfits Hrest Hmax. unfold i2c_send_sequence.
  rewrite count_segments_restarts by assumption. simpl tail.
  cbn [mbind outcome_bind].
  destruct Hfits as [Hlen Hfit].
  assert (Hlong : 2 <= sequence_length).
  { destruct rest; [congruence|]. simpl in Hlen. lia. }
  tests. rewrite compile_walk by (try split; assumption || lia).
  reflexivity.
Qed.

Lemma i2c_send_sequence_short (h : Z) (sequence : list Z) (sequence_length : Z) :
  fits sequence sequence_length → sequence_length < 2 →
  i2c_send_sequence ioctl h sequence sequence_length = Ok (rejected 1 sequence_length).
Proof.
  intros Hfits Hshort. unfold i2c_send_sequence.
  rewrite count_segments_restarts by assumption.
  cbn [mbind outcome_bind]. tests.
  destruct Hfits as [Hlen _].
  destruct sequence as [|a [|b rest]]; simpl in Hlen; try lia; reflexivity.
Qed.

Lemma i2c_send_sequence_too_many (h : Z) (sequence : list Z) (sequence_length : Z) :
  fits sequence sequence_length →
  I2C_RDRW_IOCTL_MAX_MSGS < 1 + restarts (tail sequence) →
  i2c_send_sequence ioctl h sequence sequence_length =
  Ok (rejected (1 + restarts (tail sequence)) sequence_length).
Proof.
  intros Hfits Hmany. unfold i2c_send_sequence.
  rewrite count_segments_restarts by assumption.
  cbn [mbind outcome_bind].
  destruct (sequence_length <? 2); [reflexivity|]. tests. reflexivity.
Qed.

End Returns.

(** ** The walk over a sequence given by its segments *)

Section Segments.
Context `{LSquaredC_h}.

Lemma absorb_all_fields (ds : list Z) (p : progress) :
  absorb_all ds p =
  {| segments := segments p;
     written := if seg_rw p =? WRITING then written p ++ (u8 <$> ds) else written p;
     seg_base := seg_base p;
     seg_size := seg_size p + Z.of_nat (length ds);
     seg_address := seg_address p;
     seg_rw := seg_rw p;
     read_offset := read_offset p |}.
Proof.
  revert p. induction ds as [|t ds IH]; intros p.
  - destruct p as [ms bs b s a d r]. cbn.
    rewrite Z.add_0_r, app_nil_r. destruct (d =? WRITING); reflexivity.
  - cbn [absorb_all]. rewrite IH. unfold absorb. cbn [segments written seg_base
      seg_size seg_address seg_rw read_offset].
    f_equal.
    + destruct (seg_rw p =? WRITING); [|reflexivity].
      rewrite <- app_assoc. reflexivity.
    + simpl length. lia.
Qed.

Lemma clean_cons (t : Z) (ds : list Z) :
  clean (t :: ds) = true → t ≠ I2C_RESTART ∧ clean ds = true.
Proof.
  unfold clean. cbn [forallb]. intros Hc. apply andb_prop in Hc as [Ht Hds].
  split; [|exact Hds]. apply Z.eqb_neq. apply negb_true_iff. exact Ht.
Qed.

(** Clean data before a restart that opens a segment. *)
Lemma walk_clean_open (ds : list Z) (a b : Z) (r : list Z) (p : progress) :
  clean ds = true →
  walk (ds ++ I2C_RESTART :: a :: b :: r) p =
  walk (b :: r) (open a (close (absorb_all ds p))).
Proof.
  revert p. induction ds as [|t ds IH]; intros p Hc.
  - apply walk_restart_open.
  - apply clean_cons in Hc as [Ht Hds]. cbn [absorb_all]. rewrite <- IH by exact Hds.
    destruct ds; apply walk_data; exact Ht.
Qed.

(** Clean data up to the end of the sequence. *)
Lemma walk_clean_last (ds : list Z) (p : progress) :
  clean ds = true → ds ≠ [] → walk ds p = close (absorb_all ds p).
Proof.
  revert p. induction ds as [|t ds IH]; intros p Hc Hne; [congruence|].
  apply clean_cons in Hc as [Ht Hds]. cbn [absorb_all].
  destruct ds as [|t' ds].
  - cbn [walk absorb_all]. unfold take_token. tests. reflexivity.
  - rewrite walk_data by exact Ht. apply IH; [exact Hds | discriminate].
Qed.

(** Clean data before a restart that is the last token but one. *)
Lemma walk_clean_dangling (ds : list Z) (t : Z) (p : progress) :
  clean ds = true →
  walk (ds ++ [I2C_RESTART; t]) p = close (take_token t (close (absorb_all ds p))).
Proof.
  revert p. induction ds as [|t' ds IH]; intros p Hc.
  - cbn [app absorb_all]. rewrite walk_restart_tail. reflexivity.
  - apply clean_cons in Hc as [Ht Hds]. cbn [absorb_all]. rewrite <- IH by exact Hds.
    destruct ds; apply walk_data; exact Ht.
Qed.

(** Clean data before a restart that is the last token. *)
Lemma walk_clean_restart_last (ds : list Z) (p : progress) :
  clean ds = true →
  walk (ds ++ [I2C_RESTART]) p = close (absorb_all ds p).
Proof.
  revert p. induction ds as [|t' ds IH]; intros p Hc.
  - cbn [app absorb_all walk]. unfold take_token. rewrite Z.eqb_refl. reflexivity.
  - apply clean_cons in Hc as [Ht Hds]. cbn [absorb_all]. rewrite <- IH by exact Hds.
    destruct ds; apply walk_data; exact Ht.
Qed.

(** A whole segment, from its address byte to the next one. *)
Lemma segment_closed (ms : list i2c_msg) (bs : list Z) (r a : Z) (ds : list Z) :
  close (absorb_all ds (at_start ms bs r a)) =
  {| segments := ms ++ [message (Z.of_nat (length bs)) r (a, ds)];
     written := bs ++ staged (a, ds);
     seg_base := Z.of_nat (length bs);
     seg_size := Z.of_nat (length ds);
     seg_address := u8 a;
     seg_rw := Z.land (u8 a) 1;
     read_offset := r + asked (a, ds) |}.
Proof.
  rewrite absorb_all_fields. unfold close, at_start, message_of, message, staged, asked,
    reads, WRITING, READING.
  cbn [segments written seg_base seg_size seg_address seg_rw read_offset fst snd].
  rewrite u8_bit0. destruct (Z.testbit a 0); cbn.
  - rewrite app_nil_r, Z.add_0_l. reflexivity.
  - rewrite Z.add_0_r. reflexivity.
Qed.

Lemma segment_opened (ms : list i2c_msg) (bs : list Z) (r a a' : Z) (ds : list Z) :
  open a' (close (absorb_all ds (at_start ms bs r a))) =
  at_start (ms ++ [message (Z.of_nat (length bs)) r (a, ds)])
           (bs ++ staged (a, ds)) (r + asked (a, ds)) a'.
Proof. rewrite segment_closed. reflexivity. Qed.

Lemma all_clean_cons (a : Z) (ds : list Z) (more : list segment) :
  all_clean ((a, ds) :: more) = true → clean ds = true ∧ all_clean more = true.
Proof. unfold all_clean. cbn [forallb snd]. intros Hc. apply andb_prop in Hc. exact Hc. Qed.

Lemma well_formed_cons (a : Z) (ds : list Z) (s : segment) (more : list segment) :
  well_formed ((a, ds) :: s :: more) = true →
  clean ds = true ∧ well_formed (s :: more) = true.
Proof. cbn [well_formed]. intros Hw. apply andb_prop in Hw. exact Hw. Qed.

Lemma well_formed_one (a : Z) (ds : list Z) :
  well_formed [(a, ds)] = true → clean ds = true ∧ ds ≠ [].
Proof.
  cbn [well_formed]. intros Hw. apply andb_prop in Hw as [Hc Hne].
  split; [exact Hc|]. apply negb_true_iff, bool_decide_eq_false in Hne. exact Hne.
Qed.

Lemma encode_cons (a : Z) (ds : list Z) (s : segment) (more : list segment) :
  encode ((a, ds) :: s :: more) = a :: ds ++ I2C_RESTART :: encode (s :: more).
Proof. reflexivity. Qed.

(** A well-formed sequence has an address and a token after it. *)
Lemma encode_well_formed (segs : list segment) :
  well_formed segs = true → ∃ a b r, encode segs = a :: b :: r.
Proof.
  destruct segs as [|[a ds] [|s more]]; [discriminate| |]; intros Hw.
  - apply well_formed_one in Hw as [_ Hne]. destruct ds as [|b r]; [congruence|].
    exists a, b, (r ++ []). reflexivity.
  - rewrite encode_cons. destruct ds as [|b r].
    + exists a, I2C_RESTART, (encode (s :: more)). reflexivity.
    + exists a, b, (r ++ I2C_RESTART :: encode (s :: more)). reflexivity.
Qed.

Lemma layout_cons (w r : Z) (s : segment) (more : list segment) :
  layout w r (s :: more) =
  message w r s :: layout (w + Z.of_nat (length (staged s))) (r + asked s) more.
Proof. reflexivity. Qed.

Lemma payload_cons (s : segment) (more : list segment) :
  payload (s :: more) = staged s ++ payload more.
Proof. reflexivity. Qed.

(** The messages and the staged bytes of a well-formed sequence are its
    layout and its payload. *)
Lemma walk_well_formed (segs : list segment) :
  ∀ (ms : list i2c_msg) (bs : list Z) (r a0 : Z) (body : list Z),
    well_formed segs = true → encode segs = a0 :: body →
    segments (walk body (at_start ms bs r a0)) =
      ms ++ layout (Z.of_nat (length bs)) r segs ∧
    written (walk body (at_start ms bs r a0)) = bs ++ payload segs.
Proof.
  induction segs as [|[a ds] more IH]; intros ms bs r a0 body Hw He; [discriminate|].
  destruct more as [|s more].
  - apply well_formed_one in Hw as [Hc Hne].
    cbn [encode] in He. rewrite app_nil_r in He. injection He as <- <-.
    rewrite walk_clean_last, segment_closed by assumption.
    cbn [segments written]. rewrite payload_cons. cbn [payload fmap list_fmap concat].
    rewrite app_nil_r. split; reflexivity.
  - apply well_formed_cons in Hw as [Hc Hw].
    destruct (encode_well_formed _ Hw) as (a2 & b & r' & He2).
    rewrite encode_cons, He2 in He. injection He as <- <-.
    rewrite walk_clean_open, segment_opened by exact Hc.
    destruct (IH (ms ++ [message (Z.of_nat (length bs)) r (a, ds)])
                 (bs ++ staged (a, ds)) (r + asked (a, ds)) a2 (b :: r') Hw He2)
      as [Hs Hb].
    rewrite Hs, Hb, layout_cons, payload_cons, length_app, Nat2Z.inj_add, <- !app_assoc.
    split; reflexivity.
Qed.

(** The first segment a walk closes carries the address and the direction
    it started with. *)
Lemma walk_first_close (rest : list Z) (p : progress) :
  rest ≠ [] →
  ∃ m more, segments (walk rest p) = segments p ++ m :: more ∧
    addr m = Z.shiftr (seg_address p) 1 ∧
    flags m = if seg_rw p =? 0 then 0 else I2C_M_RD.
Proof.
  apply (walk_elim (λ rest p q, rest ≠ [] →
    ∃ m more, segments q = segments p ++ m :: more ∧
      addr m = Z.shiftr (seg_address p) 1 ∧
      flags m = if seg_rw p =? 0 then 0 else I2C_M_RD)); clear rest p.
  - intros p Hne. congruence.
  - intros t p _. exists (message_of (take_token t p)), [].
    unfold take_token. destruct (t =? I2C_RESTART); repeat split; reflexivity.
  - intros t a r p _ IH _. destruct IH as (m & more & Hs & Ha & Hf); [discriminate|].
    exists m, more. repeat split; assumption.
  - intros a b r p IH _. destruct IH as (m & more & Hs & _); [discriminate|].
    exists (message_of p), (m :: more). rewrite Hs. cbn [open close segments].
    rewrite <- app_assoc. repeat split; reflexivity.
  - intros t p IH _. destruct IH as (m & more & Hs & _); [discriminate|].
    exists (message_of p), (m :: more). rewrite Hs. cbn [close segments].
    rewrite <- app_assoc. repeat split; reflexivity.
Qed.

(** Whatever follows them, segments with clean data get one message each,
    in order, with their own address and direction. *)
Lemma walk_decodes (segs : list segment) :
  ∀ (ms : list i2c_msg) (bs : list Z) (r a0 : Z) (body tl : list Z),
    all_clean segs = true → tl ≠ [] → encode segs = a0 :: body →
    ∃ front back,
      segments (walk (body ++ tl) (at_start ms bs r a0)) = ms ++ front ++ back ∧
      Forall2 (λ s m, decodes (fst s) m) segs front.
Proof.
  induction segs as [|[a ds] more IH]; intros ms bs r a0 body tl Hc Htl He;
    [discriminate|].
  apply all_clean_cons in Hc as [Hc Hmore].
  destruct more as [|[a2 ds2] more].
  - cbn [encode] in He. rewrite app_nil_r in He. injection He as <- <-.
    destruct (walk_first_close (ds ++ tl) (at_start ms bs r a)) as (m & back & Hs & Ha & Hf).
    { destruct ds; [exact Htl | discriminate]. }
    exists [m], back. split; [exact Hs|].
    constructor; [|constructor]. split; [exact Ha|].
    rewrite Hf. cbn [at_start seg_rw fst]. rewrite u8_bit0. unfold reads.
    destruct (Z.testbit a 0); reflexivity.
  - assert (Hbody : ∃ body2, encode ((a2, ds2) :: more) = a2 :: body2).
    { cbn [encode]. eexists. reflexivity. }
    destruct Hbody as (body2 & He2).
    rewrite encode_cons, He2 in He. injection He as <- <-.
    rewrite <- app_assoc. cbn [app].
    destruct (body2 ++ tl) as [|b r'] eqn:Hb.
    { apply app_eq_nil in Hb as [_ ?]. congruence. }
    rewrite walk_clean_open, segment_opened by exact Hc. rewrite <- Hb.
    destruct (IH (ms ++ [message (Z.of_nat (length bs)) r (a, ds)])
                 (bs ++ staged (a, ds)) (r + asked (a, ds)) a2 body2 tl Hmore Htl He2)
      as (front & back & Hs & Hd).
    exists (message (Z.of_nat (length bs)) r (a, ds) :: front), back.
    rewrite Hs, <- !app_assoc. split; [reflexivity|].
    constructor; [|exact Hd]. split; reflexivity.
Qed.

(** Segments with clean data, then [I2C_RESTART] and one last token. *)
Lemma walk_dangling (segs : list segment) :
  ∀ (ms : list i2c_msg) (bs : list Z) (r a0 : Z) (body : list Z) (t : Z),
    all_clean segs = true → encode segs = a0 :: body →
    ∃ m, list.last (layout (Z.of_nat (length bs)) r segs) = Some m ∧
      segments (walk (body ++ [I2C_RESTART; t]) (at_start ms bs r a0)) =
        ms ++ layout (Z.of_nat (length bs)) r segs ++ [continued t m] ∧
      written (walk (body ++ [I2C_RESTART; t]) (at_start ms bs r a0)) =
        bs ++ payload segs ++
        (if (flags m =? 0) && negb (t =? I2C_RESTART) then [u8 t] else []).
Proof.
  induction segs as [|[a ds] more IH]; intros ms bs r a0 body t Hc He; [discriminate|].
  apply all_clean_cons in Hc as [Hc Hmore].
  destruct more as [|[a2 ds2] more].
  - cbn [encode] in He. rewrite app_nil_r in He. injection He as <- <-.
    exists (message (Z.of_nat (length bs)) r (a, ds)). split; [reflexivity|].
    rewrite walk_clean_dangling, segment_closed by exact Hc.
    rewrite payload_cons. cbn [payload fmap list_fmap concat layout].
    unfold take_token, close, absorb, message_of, continued, message, staged, asked,
      reads, WRITING, READING, I2C_M_RD.
    cbn [segments written seg_base seg_size seg_address seg_rw read_offset
         addr flags len buf fst snd].
    rewrite u8_bit0.
    destruct (t =? I2C_RESTART), (Z.testbit a 0);
      cbn [segments written seg_base seg_size seg_address seg_rw read_offset
           Z.eqb andb negb Pos.eqb];
      rewrite ?app_nil_r, ?Z.add_0_r, <- ?app_assoc; split; reflexivity.
  - assert (Hbody : ∃ body2, encode ((a2, ds2) :: more) = a2 :: body2).
    { cbn [encode]. eexists. reflexivity. }
    destruct Hbody as (body2 & He2).
    rewrite encode_cons, He2 in He. injection He as <- <-.
    rewrite <- app_assoc. cbn [app].
    destruct (body2 ++ [I2C_RESTART; t]) as [|b r'] eqn:Hb.
    { apply app_eq_nil in Hb as [_ ?]. congruence. }
    rewrite walk_clean_open, segment_opened by exact Hc. rewrite <- Hb.
    destruct (IH (ms ++ [message (Z.of_nat (length bs)) r (a, ds)])
                 (bs ++ staged (a, ds)) (r + asked (a, ds)) a2 body2 t Hmore He2)
      as (m & Hl & Hs & Hw).
    rewrite length_app, Nat2Z.inj_add in Hl, Hs.
    exists m. rewrite (layout_cons _ _ (a, ds)), payload_cons, Hs, Hw, <- !app_assoc.
    split; [|split; reflexivity].
    rewrite <- Hl. destruct (layout _ _ ((a2, ds2) :: more)) eqn:Hlay; [discriminate Hlay|].
    reflexivity.
Qed.

(** Segments with clean data, then [I2C_RESTART] as the last token. *)
Lemma walk_restart_last (segs : list segment) :
  ∀ (ms : list i2c_msg) (bs : list Z) (r a0 : Z) (body : list Z),
    all_clean segs = true → encode segs = a0 :: body →
    segments (walk (body ++ [I2C_RESTART]) (at_start ms bs r a0)) =
      ms ++ layout (Z.of_nat (length bs)) r segs ∧
    written (walk (body ++ [I2C_RESTART]) (at_start ms bs r a0)) =
      bs ++ payload segs.
Proof.
  induction segs as [|[a ds] more IH]; intros ms bs r a0 body Hc He; [discriminate|].
  apply all_clean_cons in Hc as [Hc Hmore].
  destruct more as [|[a2 ds2] more].
  - cbn [encode] in He. rewrite app_nil_r in He. injection He as <- <-.
    rewrite walk_clean_restart_last, segment_closed by exact Hc.
    cbn [segments written]. rewrite payload_cons. cbn [payload fmap list_fmap concat].
    rewrite app_nil_r. split; reflexivity.
  - assert (Hbody : ∃ body2, encode ((a2, ds2) :: more) = a2 :: body2).
    { cbn [encode]. eexists. reflexivity. }
    destruct Hbody as (body2 & He2).
    rewrite encode_cons, He2 in He. injection He as <- <-.
    rewrite <- app_assoc. cbn [app].
    destruct (body2 ++ [I2C_RESTART]) as [|b r'] eqn:Hb.
    { apply app_eq_nil in Hb as [_ ?]. congruence. }
    rewrite walk_clean_open, segment_opened by exact Hc. rewrite <- Hb.
    destruct (IH (ms ++ [message (Z.of_nat (length bs)) r (a, ds)])
                 (bs ++ staged (a, ds)) (r + asked (a, ds)) a2 body2 Hmore He2)
      as [Hs Hw].
    rewrite length_app, Nat2Z.inj_add in Hs.
    rewrite (layout_cons _ _ (a, ds)), payload_cons, Hs, Hw, <- !app_assoc.
    split; reflexivity.
Qed.

(** The tokens up to the first [I2C_RESTART]. *)
Lemma clean_prefix (l : list Z) :
  ∃ ds tl, l = ds ++ tl ∧ clean ds = true ∧
           (tl = [] ∨ ∃ tl', tl = I2C_RESTART :: tl').
Proof.
  induction l as [|t l (ds & tl & -> & Hc & Htl)].
  - exists [], []. split; [reflexivity|]. split; [reflexivity | left; reflexivity].
  - destruct (Z.eqb_spec t I2C_RESTART) as [->|Hne].
    + exists [], (I2C_RESTART :: ds ++ tl). split; [reflexivity|].
      split; [reflexivity | right; eexists; reflexivity].
    + exists (t :: ds), tl. split; [reflexivity|]. split; [|exact Htl].
      unfold clean in *. cbn [forallb]. rewrite Hc.
      rewrite (proj2 (Z.eqb_neq t I2C_RESTART)) by exact Hne. reflexivity.
Qed.

(** Every sequence of two tokens or more is read by the loop as the
    encoding of segments followed by an ending. *)
Lemma sequence_parsed (rest : list Z) :
  ∀ a, rest ≠ [] →
  ∃ segs e, a :: rest = encode segs ++ ending_tokens e ∧ parsed segs e = true.
Proof.
  assert (Hall : ∀ (n : nat) (rest : list Z) (a : Z),
            (length rest <= n)%nat → rest ≠ [] →
            ∃ segs e, a :: rest = encode segs ++ ending_tokens e ∧
                      parsed segs e = true).
  { induction n as [|n IH]; intros l a Hn Hne.
    { destruct l; [congruence | simpl in Hn; lia]. }
    destruct (clean_prefix l) as (ds & tl & -> & Hc & [-> | (tl' & ->)]).
    - rewrite app_nil_r in *. exists [(a, ds)], At_end.
      split; [cbn [encode ending_tokens]; rewrite !app_nil_r; reflexivity|].
      cbn [parsed well_formed]. rewrite Hc. cbn [andb].
      apply negb_true_iff, bool_decide_eq_false. exact Hne.
    - destruct tl' as [|a' [|b r]].
      + exists [(a, ds)], Restart_last.
        split; [cbn [encode ending_tokens]; rewrite !app_nil_r; reflexivity|].
        cbn [parsed all_clean forallb snd]. rewrite Hc. reflexivity.
      + exists [(a, ds)], (Restart_then a').
        split; [cbn [encode ending_tokens]; rewrite !app_nil_r; reflexivity|].
        cbn [parsed all_clean forallb snd]. rewrite Hc. reflexivity.
      + destruct (IH (b :: r) a') as (segs & e & He & Hp).
        { rewrite length_app in Hn. simpl in Hn |- *. lia. }
        { discriminate. }
        destruct segs as [|s more].
        { destruct e; discriminate Hp. }
        exists ((a, ds) :: s :: more), e. split.
        * rewrite encode_cons, He. cbn [app]. rewrite <- app_assoc. reflexivity.
        * destruct e; cbn [parsed] in *.
          -- cbn [well_formed]. cbn [well_formed] in Hp. rewrite Hc. exact Hp.
          -- apply andb_prop in Hp as [_ Hp]. unfold all_clean in *.
             cbn [forallb snd] in *. rewrite Hc. exact Hp.
          -- apply andb_prop in Hp as [_ Hp]. unfold all_clean in *.
             cbn [forallb snd] in *. rewrite Hc. exact Hp. }
  intros a Hne. apply (Hall (length rest)); [lia | exact Hne].
Qed.

(** What the loop makes of segments and an ending. *)
Lemma walk_parsed (segs : list segment) (e : ending) (a : Z) (rest : list Z) :
  a :: rest = encode segs ++ ending_tokens e → parsed segs e = true →
  segments (walk rest (start a)) =
    layout 0 0 segs ++ ending_messages e (layout 0 0 segs) ∧
  written (walk rest (start a)) =
    payload segs ++ ending_bytes e (layout 0 0 segs).
Proof.
  intros He Hp. change (start a) with (at_start [] [] 0 a).
  destruct e as [| |t]; cbn [parsed ending_tokens] in *.
  - rewrite app_nil_r in He. symmetry in He.
    destruct (walk_well_formed segs [] [] 0 a rest Hp He) as [Hs Hb].
    rewrite Hs, Hb. cbn [app length ending_messages ending_bytes].
    rewrite !app_nil_r. split; reflexivity.
  - apply andb_prop in Hp as [Hne Hc].
    apply negb_true_iff, bool_decide_eq_false in Hne.
    destruct segs as [|[a1 ds] more]; [congruence|].
    assert (Hbody : ∃ body, encode ((a1, ds) :: more) = a1 :: body).
    { cbn [encode]. eexists. reflexivity. }
    destruct Hbody as (body & Hb). rewrite Hb in He. injection He as -> ->.
    destruct (walk_restart_last _ [] [] 0 a1 body Hc Hb) as [Hs Hw].
    rewrite Hs, Hw. cbn [app length ending_messages ending_bytes].
    rewrite !app_nil_r. split; reflexivity.
  - apply andb_prop in Hp as [Hne Hc].
    apply negb_true_iff, bool_decide_eq_false in Hne.
    destruct segs as [|[a1 ds] more]; [congruence|].
    assert (Hbody : ∃ body, encode ((a1, ds) :: more) = a1 :: body).
    { cbn [encode]. eexists. reflexivity. }
    destruct Hbody as (body & Hb). rewrite Hb in He. injection He as -> ->.
    destruct (walk_dangling _ [] [] 0 a1 body t Hc Hb) as (m & Hl & Hs & Hw).
    cbn [app length] in Hl, Hs, Hw. change (Z.of_nat 0) with 0 in Hl, Hs, Hw.
    rewrite Hs, Hw. unfold ending_messages, ending_bytes. rewrite Hl.
    split; reflexivity.
Qed.

End Segments.

(** ** The messages in their 16-bit fields *)

Section Fields.
Context `{LSquaredC_h}.

Lemma address_bits (a : Z) : 0 <= Z.shiftr (u8 a) 1 < 2 ^ 16.
Proof.
  pose proof (u8_range a) as Ha. rewrite Z.shiftr_div_pow2 by lia.
  change (2 ^ 1) with 2. split.
  - apply Z.div_pos; lia.
  - apply Z.div_lt_upper_bound; lia.
Qed.

Lemma stored_small (m : i2c_msg) :
  narrow m → 0 <= len m < 2 ^ 16 → stored m = m.
Proof.
  intros [Ha Hf] Hl. destruct m as [a f l b]. unfold stored. cbn in *.
  rewrite Ha, Hf, u16_small by exact Hl. reflexivity.
Qed.

Lemma stored_all_small (ms : list i2c_msg) :
  Forall narrow ms → Forall (λ m, 0 <= len m < 2 ^ 16) ms → stored <$> ms = ms.
Proof.
  induction 1 as [|m ms Hm _ IH]; intros Hl; [reflexivity|].
  apply Forall_cons_1 in Hl as [Hl Hls]. rewrite fmap_cons, (IH Hls).
  rewrite stored_small by assumption. reflexivity.
Qed.

Lemma message_narrow (w r : Z) (s : segment) : narrow (message w r s).
Proof.
  split; cbn [message addr flags].
  - apply u16_small, address_bits.
  - destruct (reads (fst s)); reflexivity.
Qed.

Lemma layout_narrow (segs : list segment) (w r : Z) : Forall narrow (layout w r segs).
Proof.
  revert w r. induction segs as [|s more IH]; intros w r; cbn [layout]; constructor.
  - apply message_narrow.
  - apply IH.
Qed.

(** Segments of fewer than 65536 data tokens are stored as laid out. *)
Lemma layout_stored (segs : list segment) (w r : Z) :
  Forall (λ s : segment, Z.of_nat (length (snd s)) < 2 ^ 16) segs →
  stored <$> layout w r segs = layout w r segs.
Proof.
  intros Hs. apply stored_all_small; [apply layout_narrow|].
  revert w r. induction Hs as [|s more Hl _ IH]; intros w r; cbn [layout];
    constructor.
  - cbn [message len]. lia.
  - apply IH.
Qed.

(** Every message of the walk has an address below 128 and the flags 0 or
    [I2C_M_RD]. *)
Lemma walk_narrow (rest : list Z) (a : Z) :
  Forall narrow (segments (walk rest (start a))).
Proof.
  cut (0 <= seg_address (walk rest (start a)) < 256 ∧
       Forall narrow (segments (walk rest (start a)))); [tauto|].
  apply (walk_invariant (λ p,
    0 <= seg_address p < 256 ∧ Forall narrow (segments p))).
  - intros t p Hp. exact Hp.
  - intros p [Ha Hs]. cbn [close seg_address segments]. split; [exact Ha|].
    apply Forall_app. split; [exact Hs|]. constructor; [|constructor].
    split; cbn [message_of addr flags].
    + apply u16_small. rewrite Z.shiftr_div_pow2 by lia. change (2 ^ 1) with 2.
      split; [apply Z.div_pos; lia | apply Z.div_lt_upper_bound; lia].
    + destruct (seg_rw p =? 0); reflexivity.
  - intros a' p [_ Hs]. cbn [open close seg_address segments] in *.
    split; [apply u8_range | exact Hs].
  - cbn [start seg_address segments]. split; [apply u8_range | constructor].
Qed.

(** The byte count of a segment is at most the number of tokens visited. *)
Lemma walk_lens (B : Z) (rest : list Z) (p : progress) :
  0 <= seg_size p → seg_size p + Z.of_nat (length rest) <= B →
  Forall (λ m, 0 <= len m <= B) (segments p) →
  Forall (λ m, 0 <= len m <= B) (segments (walk rest p)).
Proof.
  apply (walk_elim (λ rest p q,
    0 <= seg_size p → seg_size p + Z.of_nat (length rest) <= B →
    Forall (λ m, 0 <= len m <= B) (segments p) →
    Forall (λ m, 0 <= len m <= B) (segments q))); clear rest p.
  - intros p _ _ Hs. exact Hs.
  - intros t p H0 HB Hs. cbn [length] in HB.
    cbn [close segments]. apply Forall_app. unfold take_token.
    destruct (t =? I2C_RESTART); (split; [exact Hs|]); constructor;
      try constructor; cbn [message_of absorb len seg_size]; lia.
  - intros t a r p _ IH H0 HB Hs. cbn [length] in *.
    apply IH; cbn [absorb seg_size segments length]; (exact Hs || lia).
  - intros a b r p IH H0 HB Hs. cbn [length] in *.
    apply IH; cbn [open close seg_size segments length]; try lia.
    apply Forall_app. split; [exact Hs|]. constructor; [|constructor].
    cbn [message_of len]. lia.
  - intros t p IH H0 HB Hs. cbn [length] in *.
    apply IH; cbn [close seg_size segments length]; try lia.
    apply Forall_app. split; [exact Hs|]. constructor; [|constructor].
    cbn [message_of len]. lia.
Qed.

(** Each byte count is below the sequence length. *)
Lemma walk_counts (a : Z) (rest : list Z) (sequence_length : Z) :
  fits (a :: rest) sequence_length →
  Forall (λ m, 0 <= len m < sequence_length) (segments (walk rest (start a))).
Proof.
  intros [Hlen _]. cbn [length] in Hlen.
  assert (Hw : Forall (λ m, 0 <= len m <= sequence_length - 1)
                 (segments (walk rest (start a)))).
  { apply walk_lens; cbn [start seg_size segments]; [lia | lia | constructor]. }
  eapply Forall_impl; [|exact Hw]. cbn. intros m Hm. lia.
Qed.

(** In a sequence of at most 65536 tokens every byte count fits its field:
    the messages are stored as they are. *)
Lemma walk_stored (a : Z) (rest : list Z) (sequence_length : Z) :
  fits (a :: rest) sequence_length → sequence_length <= 65536 →
  stored <$> segments (walk rest (start a)) = segments (walk rest (start a)).
Proof.
  intros Hfits Hshort. apply stored_all_small; [apply walk_narrow|].
  pose proof (walk_counts a rest sequence_length Hfits) as Hc.
  eapply Forall_impl; [|exact Hc]. cbn. intros m Hm. lia.
Qed.

Lemma decodes_stored (a : Z) (m : i2c_msg) : decodes a m → decodes a (stored m).
Proof.
  intros [Ha Hf]. split; cbn [stored addr flags].
  - rewrite Ha. apply u16_small, address_bits.
  - rewrite Hf. destruct (reads a); reflexivity.
Qed.

(** A stored length is at most the byte count, so the range of a stored
    write message lies where the range of the segment does. *)
Lemma write_ranges_stored (n : Z) (ms : list i2c_msg) :
  Forall narrow ms → write_ranges_within n ms →
  write_ranges_within n (stored <$> ms).
Proof.
  unfold write_ranges_within. intros Hn Hr. apply Forall_fmap.
  induction Hn as [|m ms [_ Hf] _ IH]; [constructor|].
  apply Forall_cons_1 in Hr as [Hm Hr]. constructor; [|apply IH; exact Hr].
  cbn [stored flags buf len compose]. rewrite Hf. intros Hw.
  destruct (Hm Hw) as (o & Hb & Ho & Hl & He).
  exists o. pose proof (u16_range (len m)). pose proof (u16_le (len m) Hl).
  repeat split; (assumption || lia).
Qed.

Lemma read_ranges_stored (n : Z) (ms : list i2c_msg) :
  Forall narrow ms → read_ranges_within n ms →
  read_ranges_within n (stored <$> ms).
Proof.
  unfold read_ranges_within. intros Hn Hr. apply Forall_fmap.
  induction Hn as [|m ms [_ Hf] _ IH]; [constructor|].
  apply Forall_cons_1 in Hr as [Hm Hr]. constructor; [|apply IH; exact Hr].
  cbn [stored flags buf len compose]. rewrite Hf. intros Hw.
  destruct (Hm Hw) as (o & Hb & Ho & Hl & He).
  exists o. pose proof (u16_range (len m)). pose proof (u16_le (len m) Hl).
  repeat split; (assumption || lia).
Qed.

End Fields.

(** * The properties of the compiler *)

Section Properties.
Context `{LSquaredC_h}.
Variable ioctl : i2c_rdwr_ioctl_data → Z.

Lemma cells_full {A : Type} (xs : list A) :
  cells (Z.of_nat (length xs)) xs = Some <$> xs.
Proof. unfold cells. rewrite Nat2Z.id, Nat.sub_diag. apply app_nil_r. Qed.

(** C1, as amended.  For every accepted sequence of length at least 2 in
    which every [I2C_RESTART] after token 0 is followed by a token that is
    not [I2C_RESTART], the messages [i2c_send_sequence] fills in before the
    ioctl are exactly as many as [count_segments] counted, which is 1 plus
    the number of [I2C_RESTART] tokens at positions 1..length-1: the array
    it submits has no cell left unwritten. *)
Theorem emitted_segments_match_count (h : Z) (sequence : list Z) (sequence_length : Z) :
  fits sequence sequence_length → 2 <= sequence_length →
  1 + restarts (tail sequence) <= I2C_RDRW_IOCTL_MAX_MSGS →
  followed (tail sequence) = true →
  ∃ (ms : list i2c_msg) (bs : list Z),
    i2c_send_sequence ioctl h sequence sequence_length =
      Ok (submitted ioctl sequence_length
            {| handle := h; msgs := Some <$> ms; nmsgs := Z.of_nat (length ms);
               write_data := cells sequence_length bs |}) ∧
    count_segments sequence sequence_length = Ok (Z.of_nat (length ms)) ∧
    Z.of_nat (length ms) = 1 + restarts (tail sequence).
Proof.
  intros Hfits Hlong Hmax Hfollowed.
  pose proof (count_segments_restarts _ _ Hfits) as Hcount.
  destruct sequence as [|a rest]; [destruct Hfits as [-> _]; simpl in Hlong; lia|].
  cbn [tail] in *.
  assert (Hrest : rest ≠ []).
  { destruct Hfits as [-> _]. destruct rest; [simpl in Hlong; lia | discriminate]. }
  pose proof (walk_segments_exact rest (start a) Hrest Hfollowed) as Hexact.
  cbn [start segments length] in Hexact.
  rewrite <- (length_fmap stored) in Hexact.
  exists (stored <$> segments (walk rest (start a))), (written (walk rest (start a))).
  rewrite i2c_send_sequence_accepted by assumption.
  replace (1 + restarts rest)
    with (Z.of_nat (length (stored <$> segments (walk rest (start a))))) in * by lia.
  rewrite cells_full. repeat split. exact Hcount.
Qed.

(** C6, as amended.  For every call with a sequence length below 2,
    [i2c_send_sequence] returns -1 and never reaches the ioctl; the two
    blocks are allocated before the length is looked at, and released
    before the call returns. *)
Theorem short_sequence_rejected (h : Z) (sequence : list Z) (sequence_length : Z) :
  fits sequence sequence_length → sequence_length < 2 →
  i2c_send_sequence ioctl h sequence sequence_length =
  Ok {| trace := [Malloc_messages 1; Malloc_msg_buf sequence_length;
                  Free_msg_buf; Free_messages];
        result := -1 |}.
Proof. apply i2c_send_sequence_short. Qed.

(** C7.  For every sequence whose segment count, 1 plus the number of
    [I2C_RESTART] tokens after token 0, exceeds the limit of 42 messages,
    [i2c_send_sequence] returns -1 and its trace has no ioctl: the call
    gives up before the transport is invoked. *)
Theorem too_many_segments_rejected (h : Z) (sequence : list Z) (sequence_length : Z) :
  fits sequence sequence_length →
  42 < 1 + restarts (tail sequence) →
  count_segments sequence sequence_length = Ok (1 + restarts (tail sequence)) ∧
  i2c_send_sequence ioctl h sequence sequence_length =
  Ok {| trace := [Malloc_messages (1 + restarts (tail sequence));
                  Malloc_msg_buf sequence_length; Free_msg_buf; Free_messages];
        result := -1 |}.
Proof.
  intros Hfits Hmany. split.
  - apply count_segments_restarts. exact Hfits.
  - apply i2c_send_sequence_too_many; assumption.
Qed.

(** What an accepted well-formed sequence submits. *)
Lemma well_formed_submitted (h : Z) (segs : list segment) (sequence_length : Z) :
  fits (encode segs) sequence_length → well_formed segs = true →
  1 + restarts (tail (encode segs)) <= I2C_RDRW_IOCTL_MAX_MSGS →
  i2c_send_sequence ioctl h (encode segs) sequence_length =
  Ok (submitted ioctl sequence_length
        {| handle := h;
           msgs := cells (1 + restarts (tail (encode segs)))
                     (stored <$> layout 0 0 segs);
           nmsgs := 1 + restarts (tail (encode segs));
           write_data := cells sequence_length (payload segs) |}).
Proof.
  intros Hfits Hw Hmax.
  destruct (encode_well_formed segs Hw) as (a & b & r & He). rewrite He in *.
  cbn [tail] in *.
  rewrite i2c_send_sequence_accepted by (assumption || discriminate).
  destruct (walk_well_formed segs [] [] 0 a (b :: r) Hw He) as [Hs Hb].
  change (at_start [] [] 0 a) with (start a) in Hs, Hb.
  rewrite Hs, Hb. reflexivity.
Qed.

(** C2.  For the five-token sequence [addr1|WRITE, d1, RESTART, addr2|READ,
    READ], [i2c_send_sequence] submits exactly two messages, in order: a
    write of length 1 whose buffer is the start of [msg_buf], which holds
    [d1]; then a read of length 1 whose buffer is the caller's
    [received_data] at offset 0. *)
Theorem restart_sequence_compiles_to_two_segments (h addr1 d1 addr2 : Z) :
  out_of_band →
  0 <= addr1 < 256 → Z.testbit addr1 0 = false →
  0 <= addr2 < 256 → Z.testbit addr2 0 = true →
  0 <= d1 < 256 →
  i2c_send_sequence ioctl h [addr1; d1; I2C_RESTART; addr2; I2C_READ] 5 =
  Ok (submitted ioctl 5
        {| handle := h;
           msgs := [Some {| addr := Z.shiftr addr1 1; flags := 0; len := 1;
                            buf := Msg_buf 0 |};
                    Some {| addr := Z.shiftr addr2 1; flags := I2C_M_RD; len := 1;
                            buf := Received_data 0 |}];
           nmsgs := 2;
           write_data := [Some d1; None; None; None; None] |}).
Proof.
  intros (Hrestart & Hread & Hne) Ha1 Hw1 Ha2 Hr2 Hd1.
  assert (Hcount : restarts [d1; I2C_RESTART; addr2; I2C_READ] = 1).
  { cbn [restarts]. rewrite Z.eqb_refl. tests. reflexivity. }
  change [addr1; d1; I2C_RESTART; addr2; I2C_READ]
    with (encode [(addr1, [d1]); (addr2, [I2C_READ])]).
  rewrite (well_formed_submitted h [(addr1, [d1]); (addr2, [I2C_READ])]).
  - cbn [encode app tail]. rewrite Hcount.
    rewrite layout_stored by (repeat constructor; cbn; lia).
    unfold cells, payload, staged, layout, message, asked, reads.
    cbn -[u8 Z.shiftr Z.testbit]. rewrite Hw1, Hr2. cbn -[u8 Z.shiftr].
    rewrite !u8_small by lia. reflexivity.
  - split; [reflexivity | cbn; lia].
  - cbn. tests. reflexivity.
  - cbn [encode app tail]. rewrite Hcount. unfold I2C_RDRW_IOCTL_MAX_MSGS. lia.
Qed.

(** C3.  For every pure-write sequence [addr|WRITE, b1, b2, b3],
    [i2c_send_sequence] submits exactly one message: a write of length 3
    whose buffer is the start of [msg_buf], which holds [b1], [b2], [b3]
    in that order. *)
Theorem pure_write_compiles_to_one_segment (h a b1 b2 b3 : Z) :
  out_of_band →
  0 <= a < 256 → Z.testbit a 0 = false →
  0 <= b1 < 256 → 0 <= b2 < 256 → 0 <= b3 < 256 →
  i2c_send_sequence ioctl h [a; b1; b2; b3] 4 =
  Ok (submitted ioctl 4
        {| handle := h;
           msgs := [Some {| addr := Z.shiftr a 1; flags := 0; len := 3;
                            buf := Msg_buf 0 |}];
           nmsgs := 1;
           write_data := [Some b1; Some b2; Some b3; None] |}).
Proof.
  intros (Hrestart & _ & _) Ha Hw Hb1 Hb2 Hb3.
  assert (Hcount : restarts [b1; b2; b3] = 0).
  { cbn [restarts]. tests. reflexivity. }
  change [a; b1; b2; b3] with (encode [(a, [b1; b2; b3])]).
  rewrite (well_formed_submitted h [(a, [b1; b2; b3])]).
  - cbn [encode app tail]. rewrite Hcount.
    rewrite layout_stored by (repeat constructor; cbn; lia).
    unfold cells, payload, staged, layout, message, asked, reads.
    cbn -[u8 Z.shiftr Z.testbit]. rewrite Hw. cbn -[u8 Z.shiftr].
    rewrite !u8_small by lia. reflexivity.
  - split; [reflexivity | cbn; lia].
  - cbn. tests. reflexivity.
  - cbn [encode app tail]. rewrite Hcount. unfold I2C_RDRW_IOCTL_MAX_MSGS. lia.
Qed.

Lemma read_total_app (ms ms' : list i2c_msg) :
  read_total (ms ++ ms') = read_total ms + read_total ms'.
Proof. induction ms as [|m ms IH]; cbn [app read_total]; lia. Qed.

(** The read offset is the sum of the read messages filled in so far, and
    every message was given its place accordingly. *)
Lemma walk_offsets (rest : list Z) (a : Z) :
  (seg_rw (walk rest (start a)) = 0 ∨ seg_rw (walk rest (start a)) = 1) ∧
  read_offset (walk rest (start a)) = read_total (segments (walk rest (start a))) ∧
  placed (segments (walk rest (start a))).
Proof.
  apply (walk_invariant (λ p,
    (seg_rw p = 0 ∨ seg_rw p = 1) ∧
    read_offset p = read_total (segments p) ∧ placed (segments p))).
  - intros t p Hp. exact Hp.
  - intros p (Hrw & Hoff & Hplaced). cbn [close seg_rw read_offset segments].
    split; [exact Hrw|]. split.
    + rewrite read_total_app. cbn [read_total message_of flags len].
      unfold READING, I2C_M_RD. destruct Hrw as [-> | ->]; cbn; lia.
    + intros k m Hk. apply lookup_snoc_Some in Hk as [[Hlt Hk] | [-> <-]].
      * rewrite take_app_le by lia. apply Hplaced. exact Hk.
      * rewrite take_app_length. cbn [message_of flags buf]. unfold I2C_M_RD.
        destruct Hrw as [-> | ->]; cbn; [eexists; reflexivity | congruence].
  - intros a' p (_ & Hoff & Hplaced). cbn [open seg_rw read_offset segments] in *.
    split; [|split; assumption].
    rewrite u8_bit0. destruct (Z.testbit a' 0); auto.
  - cbn [start seg_rw read_offset segments read_total].
    split; [|split; [reflexivity|]].
    + rewrite u8_bit0. destruct (Z.testbit a 0); auto.
    + intros k m Hk. rewrite lookup_nil in Hk. discriminate.
Qed.

Lemma walk_placed (rest : list Z) (a : Z) :
  placed (segments (walk rest (start a))).
Proof. apply walk_offsets. Qed.


(** C5, as amended.  Take a sequence that begins with the encoding of
    segments with clean data and goes on with at least one more token.
    If it is accepted, the messages [i2c_send_sequence] fills in begin with
    one message per segment, in order, and each carries the direction bit 0
    of its segment's address token (0 write, 1 read) and, as device
    address, the low eight bits of that token shifted right by one: token 0
    for the first segment, the token after each [I2C_RESTART] for the
    others.  That is the token itself shifted right by one when the token
    is an address byte, below 256. *)
Theorem address_tokens_decoded (h : Z) (segs : list segment) (tl : list Z)
    (sequence_length : Z) :
  fits (encode segs ++ tl) sequence_length →
  1 + restarts (tail (encode segs ++ tl)) <= I2C_RDRW_IOCTL_MAX_MSGS →
  segs ≠ [] → all_clean segs = true → tl ≠ [] →
  ∃ (front back : list i2c_msg) (bs : list Z),
    i2c_send_sequence ioctl h (encode segs ++ tl) sequence_length =
      Ok (submitted ioctl sequence_length
            {| handle := h;
               msgs := cells (1 + restarts (tail (encode segs ++ tl))) (front ++ back);
               nmsgs := 1 + restarts (tail (encode segs ++ tl));
               write_data := cells sequence_length bs |}) ∧
    Forall2 (λ s m, decodes (fst s) m ∧
                    (0 <= fst s < 256 → addr m = Z.shiftr (fst s) 1)) segs front.
Proof.
  intros Hfits Hmax Hsegs Hclean Htl.
  assert (He : ∃ a body, encode segs = a :: body).
  { destruct segs as [|[a ds] more]; [congruence|]. cbn [encode]. eauto. }
  destruct He as (a & body & He). rewrite He in *. cbn [app tail] in *.
  destruct (walk_decodes segs [] [] 0 a body tl Hclean Htl He)
    as (front & back & Hs & Hd).
  change (at_start [] [] 0 a) with (start a) in Hs. cbn [app] in Hs.
  exists (stored <$> front), (stored <$> back),
    (written (walk (body ++ tl) (start a))).
  split.
  - rewrite i2c_send_sequence_accepted; try assumption.
    + rewrite Hs, fmap_app. reflexivity.
    + destruct body; [exact Htl | discriminate].
  - clear -Hd. induction Hd as [|s m segs' front' Hm _ IH]; [constructor|].
    rewrite fmap_cons. constructor; [|exact IH].
    apply decodes_stored in Hm. split; [exact Hm|].
    intros Hbyte. destruct Hm as [Ha _]. rewrite Ha, u8_small by lia.
    reflexivity.
Qed.

(** C8.  For every sequence of length L, the pass over it ends without a
    fault: no byte is stored outside [msg_buf], which has L cells, and no
    message outside [messages].  When it ends, the bytes staged are the
    first cells of [msg_buf], the write cursor stands right after them,
    and they are at most L-1. *)
Theorem msg_buf_never_overrun (sequence : list Z) (sequence_length n : Z) :
  fits sequence sequence_length → 1 <= sequence_length →
  count_segments sequence sequence_length = Ok n →
  ∃ (st : state) (bs : list Z),
    compile sequence sequence_length n = Ok st ∧
    msg_buf st = cells sequence_length bs ∧
    Z.of_nat (length (msg_buf st)) = sequence_length ∧
    msg_cur_buf_ptr st = Z.of_nat (length bs) ∧
    Z.of_nat (length bs) <= sequence_length - 1.
Proof.
  intros Hfits Hlong Hcount.
  rewrite count_segments_restarts in Hcount by assumption. injection Hcount as <-.
  destruct sequence as [|a rest]; [destruct Hfits as [-> _]; simpl in Hlong; lia|].
  cbn [tail]. destruct rest as [|b rest].
  - destruct Hfits as [-> _]. exists (initial_state 1 a 1), []. cbn. tauto.
  - pose proof (walk_written_bound (b :: rest) (start a)) as Hw.
    cbn [start written length] in Hw.
    pose proof Hfits as [Hlen _]. cbn [length] in Hlen.
    exists (state_of (1 + restarts (b :: rest)) sequence_length
              (walk (b :: rest) (start a)) sequence_length),
           (written (walk (b :: rest) (start a))).
    split; [apply compile_walk; [assumption | discriminate | lia]|].
    cbn [state_of msg_buf msg_cur_buf_ptr].
    rewrite cells_length by lia. repeat split; lia.
Qed.

(** C9, as amended.  Take an accepted sequence made of the encoding of
    segments with clean data, then [I2C_RESTART], then one last token [t]:
    the [I2C_RESTART] at index length-2 is reached by the loop.  No address
    is read after it.  The messages filled in are those of the segments
    and one more, [continued t m] for the last of them [m]: the same
    address and direction, the byte count of [m] carried on (plus one for
    [t], unless [t] is [I2C_RESTART]), and as buffer the base of [m] in
    [msg_buf] if the segment writes, [received_data] past the bytes of [m]
    if it reads.  Each is stored in the 16-bit fields of its
    [struct i2c_msg], so that [len] holds the byte count modulo 65536; in
    a sequence of at most 65536 tokens that is the byte count itself. *)
Theorem dangling_restart_continues_segment (h : Z) (segs : list segment) (t : Z)
    (sequence_length : Z) :
  fits (encode segs ++ [I2C_RESTART; t]) sequence_length →
  1 + restarts (tail (encode segs ++ [I2C_RESTART; t])) <= I2C_RDRW_IOCTL_MAX_MSGS →
  segs ≠ [] → all_clean segs = true →
  ∃ m : i2c_msg,
    list.last (layout 0 0 segs) = Some m ∧
    i2c_send_sequence ioctl h (encode segs ++ [I2C_RESTART; t]) sequence_length =
      Ok (submitted ioctl sequence_length
            {| handle := h;
               msgs := cells (1 + restarts (tail (encode segs ++ [I2C_RESTART; t])))
                         (stored <$> (layout 0 0 segs ++ [continued t m]));
               nmsgs := 1 + restarts (tail (encode segs ++ [I2C_RESTART; t]));
               write_data :=
                 cells sequence_length
                   (payload segs ++
                    if (flags m =? 0) && negb (t =? I2C_RESTART) then [u8 t] else [])
            |}) ∧
    (sequence_length <= 65536 →
     stored <$> (layout 0 0 segs ++ [continued t m]) =
     layout 0 0 segs ++ [continued t m]).
Proof.
  intros Hfits Hmax Hsegs Hclean.
  assert (He : ∃ a body, encode segs = a :: body).
  { destruct segs as [|[a ds] more]; [congruence|]. cbn [encode]. eauto. }
  destruct He as (a & body & He). rewrite He in *. cbn [app tail] in *.
  destruct (walk_dangling segs [] [] 0 a body t Hclean He) as (m & Hl & Hs & Hb).
  change (at_start [] [] 0 a) with (start a) in Hs, Hb. cbn [app length] in Hs, Hb, Hl.
  change (Z.of_nat 0) with 0 in Hs, Hb, Hl.
  exists m. split; [exact Hl|]. split.
  - rewrite i2c_send_sequence_accepted; try assumption.
    + rewrite Hs, Hb. reflexivity.
    + destruct body; discriminate.
  - intros Hshort. rewrite <- Hs. apply (walk_stored _ _ _ Hfits Hshort).
Qed.

(** C10.  [i2c_send_sequence] gives up before the ioctl if and only if
    the sequence length is below 2 or the segment count is above the
    limit; otherwise it submits, whatever the tokens are, and no call
    faults.  Token values are not validated.  Every accepted sequence is
    read as the encoding of segments, whose address tokens may be any
    tokens and whose data may be any tokens other than [I2C_RESTART],
    followed by an ending; every data token counts for one byte of its
    segment, and on write segments its low eight bits are staged
    ([layout], [payload]); so does the last token of an ending
    [Restart_then], for the message that continues the last segment.  The
    messages submitted are these, stored in their 16-bit fields: [len]
    holds the byte count modulo 65536. *)
Theorem only_length_and_count_reject (h : Z) (sequence : list Z) (sequence_length : Z) :
  fits sequence sequence_length →
  ((∃ n, i2c_send_sequence ioctl h sequence sequence_length =
         Ok (rejected n sequence_length)) ↔
   (sequence_length < 2 ∨ I2C_RDRW_IOCTL_MAX_MSGS < 1 + restarts (tail sequence))) ∧
  (2 <= sequence_length → 1 + restarts (tail sequence) <= I2C_RDRW_IOCTL_MAX_MSGS →
   ∃ (ms : list i2c_msg) (bs : list Z),
     i2c_send_sequence ioctl h sequence sequence_length =
       Ok (submitted ioctl sequence_length
             {| handle := h;
                msgs := cells (1 + restarts (tail sequence)) (stored <$> ms);
                nmsgs := 1 + restarts (tail sequence);
                write_data := cells sequence_length bs |}) ∧
     (sequence_length <= 65536 → stored <$> ms = ms) ∧
     (∃ (segs : list segment) (e : ending),
        sequence = encode segs ++ ending_tokens e ∧ parsed segs e = true) ∧
     (∀ (segs : list segment) (e : ending),
        sequence = encode segs ++ ending_tokens e → parsed segs e = true →
        ms = layout 0 0 segs ++ ending_messages e (layout 0 0 segs) ∧
        bs = payload segs ++ ending_bytes e (layout 0 0 segs)) ∧
     (∀ segs, sequence = encode segs → well_formed segs = true →
              ms = layout 0 0 segs ∧ bs = payload segs)).
Proof.
  intros Hfits.
  assert (Haccepted : 2 <= sequence_length →
    1 + restarts (tail sequence) <= I2C_RDRW_IOCTL_MAX_MSGS →
    ∃ a rest, sequence = a :: rest ∧ rest ≠ []).
  { intros Hlong _. destruct Hfits as [Hlen _].
    destruct sequence as [|a [|b rest]]; simpl in Hlen; try lia.
    exists a, (b :: rest). split; [reflexivity | discriminate]. }
  split; [split|].
  - intros [n Hn].
    destruct (Z.lt_ge_cases sequence_length 2) as [|Hlong]; [left; assumption|].
    destruct (Z.lt_ge_cases I2C_RDRW_IOCTL_MAX_MSGS (1 + restarts (tail sequence)))
      as [|Hmax]; [right; assumption|].
    destruct (Haccepted Hlong Hmax) as (a & rest & -> & Hrest). cbn [tail] in *.
    rewrite i2c_send_sequence_accepted in Hn by assumption.
    unfold submitted, rejected in Hn. discriminate Hn.
  - intros [Hshort | Hmany].
    + exists 1. apply i2c_send_sequence_short; assumption.
    + exists (1 + restarts (tail sequence)).
      apply i2c_send_sequence_too_many; assumption.
  - intros Hlong Hmax.
    destruct (Haccepted Hlong Hmax) as (a & rest & -> & Hrest). cbn [tail] in *.
    exists (segments (walk rest (start a))), (written (walk rest (start a))).
    split; [apply i2c_send_sequence_accepted; assumption|].
    split; [apply walk_stored; exact Hfits|].
    split; [apply sequence_parsed; exact Hrest|].
    split.
    + intros segs e He Hp. apply walk_parsed; assumption.
    + intros segs He Hw. symmetry in He.
      destruct (walk_well_formed segs [] [] 0 a rest Hw He) as [Hs Hb].
      split; assumption.
Qed.

End Properties.

(** * Further properties of the compiler *)

Section Further.
Context `{LSquaredC_h}.
Variable ioctl : i2c_rdwr_ioctl_data → Z.

Lemma accepted_shape (sequence : list Z) (sequence_length : Z) :
  fits sequence sequence_length → 2 <= sequence_length →
  ∃ a rest, sequence = a :: rest ∧ rest ≠ [].
Proof.
  intros [Hlen _] Hlong.
  destruct sequence as [|a [|b rest]]; simpl in Hlen; try lia.
  exists a, (b :: rest). split; [reflexivity | discriminate].
Qed.

(** X1.  For every sequence, the empty one and the one of a single token
    included, [count_segments] returns 1 plus the number of [I2C_RESTART]
    tokens after token 0.  The count is at least 1 and at most the length
    of the sequence (1 for a sequence of no token), so it does not wrap. *)
Theorem count_segments_bounds (sequence : list Z) (sequence_length : Z) :
  fits sequence sequence_length →
  ∃ n, count_segments sequence sequence_length = Ok n ∧
       n = 1 + restarts (tail sequence) ∧
       1 <= n <= Z.max 1 sequence_length.
Proof.
  intros Hfits. exists (1 + restarts (tail sequence)).
  split; [apply count_segments_restarts; exact Hfits|]. split; [reflexivity|].
  destruct Hfits as [-> _]. pose proof (restarts_bounds (tail sequence)) as Hb.
  destruct sequence as [|a rest]; simpl in *; lia.
Qed.

(** X2.  On every path through [i2c_send_sequence] the two blocks are
    allocated once and released once, [msg_buf] first, and after the ioctl
    when there is one; the ioctl is reached at most once, and the call
    never faults. *)
Theorem blocks_released_on_every_path (h : Z) (sequence : list Z) (sequence_length : Z) :
  fits sequence sequence_length →
  ∃ (r : returned) (n : Z),
    i2c_send_sequence ioctl h sequence sequence_length = Ok r ∧
    (trace r = [Malloc_messages n; Malloc_msg_buf sequence_length;
                Free_msg_buf; Free_messages] ∧ result r = -1 ∨
     ∃ d, trace r = [Malloc_messages n; Malloc_msg_buf sequence_length;
                     Ioctl_I2C_RDWR d; Free_msg_buf; Free_messages] ∧
          result r = ioctl d).
Proof.
  intros Hfits.
  destruct (Z.lt_ge_cases sequence_length 2) as [Hshort|Hlong].
  { eexists _, 1. split; [apply i2c_send_sequence_short; assumption|].
    left. split; reflexivity. }
  destruct (Z.lt_ge_cases I2C_RDRW_IOCTL_MAX_MSGS (1 + restarts (tail sequence)))
    as [Hmany|Hmax].
  { eexists _, _. split; [apply i2c_send_sequence_too_many; assumption|].
    left. split; reflexivity. }
  destruct (accepted_shape _ _ Hfits Hlong) as (a & rest & -> & Hrest).
  cbn [tail] in *.
  eexists _, _. split; [apply i2c_send_sequence_accepted; assumption|].
  right. eexists. split; reflexivity.
Qed.

(** X3.  For every accepted sequence the message array has as many cells
    as [count_segments] counted, the messages filled in are at least one
    and at most that many, and they are the first cells of the array. *)
Theorem messages_filled_in_bounds (h : Z) (sequence : list Z) (sequence_length : Z) :
  fits sequence sequence_length → 2 <= sequence_length →
  1 + restarts (tail sequence) <= I2C_RDRW_IOCTL_MAX_MSGS →
  ∃ (ms : list i2c_msg) (bs : list Z),
    i2c_send_sequence ioctl h sequence sequence_length =
      Ok (submitted ioctl sequence_length
            {| handle := h; msgs := cells (1 + restarts (tail sequence)) ms;
               nmsgs := 1 + restarts (tail sequence);
               write_data := cells sequence_length bs |}) ∧
    1 <= Z.of_nat (length ms) <= 1 + restarts (tail sequence) ∧
    Z.of_nat (length (cells (1 + restarts (tail sequence)) ms)) =
      1 + restarts (tail sequence).
Proof.
  intros Hfits Hlong Hmax.
  destruct (accepted_shape _ _ Hfits Hlong) as (a & rest & -> & Hrest).
  cbn [tail] in *.
  exists (stored <$> segments (walk rest (start a))),
    (written (walk rest (start a))).
  split; [apply i2c_send_sequence_accepted; assumption|].
  pose proof (walk_segments_bound rest (start a)) as Hupper.
  destruct (walk_first_close rest (start a) Hrest) as (m & more & Hs & _).
  cbn [start segments length app] in Hupper, Hs.
  assert (Hlower : 1 <= Z.of_nat (length (segments (walk rest (start a))))).
  { rewrite Hs. simpl. lia. }
  rewrite length_fmap. split; [lia|]. apply cells_length.
  rewrite length_fmap. lia.
Qed.

Lemma write_ranges_within_mono (n n' : Z) (ms : list i2c_msg) :
  n <= n' → write_ranges_within n ms → write_ranges_within n' ms.
Proof.
  intros Hn. unfold write_ranges_within. apply Forall_impl.
  intros m Hm Hf. destruct (Hm Hf) as (o & Hb & Ho & Hl & He).
  exists o. repeat split; try assumption. lia.
Qed.

(** What the walk keeps true of the segment in progress and of the
    messages filled in. *)
Lemma walk_ranges (rest : list Z) (a : Z) :
  write_ranges_within (Z.of_nat (length (written (walk rest (start a)))))
    (segments (walk rest (start a))) ∧
  Forall (λ m, 0 <= len m) (segments (walk rest (start a))).
Proof.
  cut (0 <= seg_base (walk rest (start a)) ∧ 0 <= seg_size (walk rest (start a)) ∧
       (seg_rw (walk rest (start a)) = 0 →
        seg_base (walk rest (start a)) + seg_size (walk rest (start a)) =
        Z.of_nat (length (written (walk rest (start a))))) ∧
       write_ranges_within (Z.of_nat (length (written (walk rest (start a)))))
         (segments (walk rest (start a))) ∧
       Forall (λ m, 0 <= len m) (segments (walk rest (start a)))); [tauto|].
  apply (walk_invariant (λ p,
    0 <= seg_base p ∧ 0 <= seg_size p ∧
    (seg_rw p = 0 → seg_base p + seg_size p = Z.of_nat (length (written p))) ∧
    write_ranges_within (Z.of_nat (length (written p))) (segments p) ∧
    Forall (λ m, 0 <= len m) (segments p))).
  - intros t p (Hb & Hs & Hw & Hr & Hl). unfold absorb, WRITING.
    cbn [seg_base seg_size seg_rw written segments].
    destruct (Z.eqb_spec (seg_rw p) 0) as [Hrw|Hrw].
    + rewrite length_app. simpl length.
      split; [exact Hb|]. split; [lia|]. split; [|split; [|exact Hl]].
      * intros _. specialize (Hw Hrw). lia.
      * eapply write_ranges_within_mono; [|exact Hr]. lia.
    + split; [exact Hb|]. split; [lia|]. split; [|split; assumption].
      intros Hrw'. contradiction.
  - intros p (Hb & Hs & Hw & Hr & Hl). cbn [close seg_base seg_size seg_rw written segments].
    split; [exact Hb|]. split; [exact Hs|]. split; [exact Hw|]. split.
    + apply Forall_app. split; [exact Hr|]. constructor; [|constructor].
      cbn [message_of flags buf len]. unfold I2C_M_RD.
      destruct (Z.eqb_spec (seg_rw p) 0) as [Hrw|Hrw]; [|discriminate].
      intros _. exists (seg_base p). specialize (Hw Hrw).
      split; [reflexivity|]. split; [exact Hb|]. split; [exact Hs|]. lia.
    + apply Forall_app. split; [exact Hl|]. constructor; [|constructor].
      exact Hs.
  - intros a' p (Hb & Hs & Hw & Hr & Hl).
    cbn [open close seg_base seg_size seg_rw written segments] in *.
    split; [lia|]. split; [lia|]. split; [intros _; lia|]. split; assumption.
  - cbn [start seg_base seg_size seg_rw written segments length].
    split; [lia|]. split; [lia|]. split; [intros _; lia|]. split; constructor.
Qed.

(** X4.  For every accepted sequence, each write message that is filled in
    points into [msg_buf] at a range of bytes that were all staged: the
    kernel is never handed a byte of [msg_buf] that was not written, nor
    one outside the block. *)
Theorem write_messages_cover_staged_bytes (h : Z) (sequence : list Z)
    (sequence_length : Z) :
  fits sequence sequence_length → 2 <= sequence_length →
  1 + restarts (tail sequence) <= I2C_RDRW_IOCTL_MAX_MSGS →
  ∃ (ms : list i2c_msg) (bs : list Z),
    i2c_send_sequence ioctl h sequence sequence_length =
      Ok (submitted ioctl sequence_length
            {| handle := h; msgs := cells (1 + restarts (tail sequence)) ms;
               nmsgs := 1 + restarts (tail sequence);
               write_data := cells sequence_length bs |}) ∧
    write_ranges_within (Z.of_nat (length bs)) ms ∧
    Z.of_nat (length bs) < sequence_length.
Proof.
  intros Hfits Hlong Hmax.
  destruct (accepted_shape _ _ Hfits Hlong) as (a & rest & -> & Hrest).
  cbn [tail] in *.
  exists (stored <$> segments (walk rest (start a))),
    (written (walk rest (start a))).
  split; [apply i2c_send_sequence_accepted; assumption|].
  split; [apply write_ranges_stored; [apply walk_narrow | apply walk_ranges]|].
  pose proof (walk_written_bound rest (start a)) as Hw.
  destruct Hfits as [-> _]. cbn [start written length] in *. lia.
Qed.

Lemma read_total_nonneg (ms : list i2c_msg) :
  Forall (λ m, 0 <= len m) ms → 0 <= read_total ms.
Proof.
  induction 1 as [|m ms Hm _ IH]; cbn [read_total]; [lia|].
  destruct (flags m =? I2C_M_RD); lia.
Qed.

Lemma placed_read_ranges (ms : list i2c_msg) :
  placed ms → Forall (λ m, 0 <= len m) ms → read_ranges_within (read_total ms) ms.
Proof.
  intros Hplaced Hlen. apply Forall_lookup. intros k m Hk Hflags.
  specialize (Hplaced k m Hk). rewrite Hflags, Z.eqb_refl in Hplaced.
  exists (read_total (take k ms)).
  assert (Hm : 0 <= len m)
    by exact (Forall_lookup_1 (λ m, 0 <= len m) ms k m Hlen Hk).
  assert (Hbefore : 0 <= read_total (take k ms))
    by (apply read_total_nonneg, Forall_take; exact Hlen).
  assert (Hafter : 0 <= read_total (drop (S k) ms))
    by (apply read_total_nonneg, Forall_drop; exact Hlen).
  repeat split; try assumption.
  rewrite <- (take_drop k ms) at 2. rewrite read_total_app.
  rewrite (drop_S ms m k Hk). cbn [read_total].
  rewrite Hflags, Z.eqb_refl. lia.
Qed.


Lemma read_tokens_app (l l' : list Z) :
  read_tokens (l ++ l') = read_tokens l + read_tokens l'.
Proof. induction l as [|t l IH]; cbn [app read_tokens]; lia. Qed.

Lemma is_byte_range (t : Z) : is_byte t = true → 0 <= t < 256.
Proof. unfold is_byte. intros Hb. apply andb_prop in Hb as [H0 H1]. lia. Qed.

Lemma read_tokens_bytes (ds : list Z) :
  255 < I2C_READ → forallb is_byte ds = true → read_tokens ds = 0.
Proof.
  intros Hread. induction ds as [|t ds IH]; cbn [forallb read_tokens]; [reflexivity|].
  intros Hb. apply andb_prop in Hb as [Ht Hds]. apply is_byte_range in Ht.
  tests. rewrite IH by exact Hds. reflexivity.
Qed.

Lemma read_tokens_reads (ds : list Z) :
  forallb (λ t, t =? I2C_READ) ds = true →
  read_tokens ds = Z.of_nat (length ds) ∧ ds = replicate (length ds) I2C_READ.
Proof.
  induction ds as [|t ds IH]; cbn [forallb read_tokens length replicate];
    [split; reflexivity|].
  intros Hb. apply andb_prop in Hb as [Ht Hds]. apply Z.eqb_eq in Ht. subst t.
  destruct (IH Hds) as [Hn Hr]. rewrite Z.eqb_refl, Hn, <- Hr. split; [lia | reflexivity].
Qed.

Lemma bytes_clean (ds : list Z) :
  255 < I2C_RESTART → forallb is_byte ds = true → u8 <$> ds = ds.
Proof.
  intros _. induction ds as [|t ds IH]; cbn [forallb]; [reflexivity|].
  intros Hb. apply andb_prop in Hb as [Ht Hds]. apply is_byte_range in Ht.
  cbn [fmap list_fmap]. rewrite u8_small by exact Ht.
  f_equal. apply IH. exact Hds.
Qed.

Lemma documented_cons (s : segment) (more : list segment) :
  documented (s :: more) = true → documented_segment s = true ∧ documented more = true.
Proof. unfold documented. cbn [forallb]. intros Hd. apply andb_prop in Hd. exact Hd. Qed.

(** The bytes a documented sequence asks for are its [I2C_READ] tokens. *)
Lemma read_total_layout (segs : list segment) :
  out_of_band → documented segs = true →
  ∀ w r, read_total (layout w r segs) = read_tokens (encode segs).
Proof.
  intros (Hrestart & Hread & Hne) Hd.
  induction segs as [|[a ds] more IH]; intros w r; [reflexivity|].
  apply documented_cons in Hd as [Hs Hmore]. specialize (IH Hmore).
  unfold documented_segment in Hs. cbn [fst snd] in Hs.
  apply andb_prop in Hs as [Ha Hds]. apply is_byte_range in Ha.
  rewrite layout_cons. cbn [read_total message flags len fst snd encode read_tokens].
  rewrite read_tokens_app, IH.
  assert (Hrest : read_tokens match more with
                              | [] => []
                              | _ :: _ => I2C_RESTART :: encode more
                              end = read_tokens (encode more)).
  { destruct more; [reflexivity|]. cbn [read_tokens].
    rewrite (proj2 (Z.eqb_neq I2C_RESTART I2C_READ)) by congruence. reflexivity. }
  rewrite Hrest. unfold I2C_M_RD. tests.
  destruct (reads a).
  - apply read_tokens_reads in Hds as [-> _]. rewrite Z.eqb_refl. lia.
  - rewrite (read_tokens_bytes ds (proj1 Hread) Hds). tests. lia.
Qed.

(** X6.  The rule of the comment on [i2c_send_sequence] for the size of
    [received_data] holds: for an accepted sequence made as documented
    (address bytes, bytes to write, [I2C_READ] where a byte is to be read)
    the byte counts of the read segments are, in all, as many as the
    sequence has [I2C_READ] tokens, and each read message submitted asks
    for a range within that many bytes.  In a sequence of at most 65536
    tokens the [len] fields of the read messages add up to that number
    too. *)
Theorem received_data_sized_by_read_tokens (h : Z) (segs : list segment)
    (sequence_length : Z) :
  out_of_band →
  fits (encode segs) sequence_length →
  1 + restarts (tail (encode segs)) <= I2C_RDRW_IOCTL_MAX_MSGS →
  well_formed segs = true → documented segs = true →
  i2c_send_sequence ioctl h (encode segs) sequence_length =
    Ok (submitted ioctl sequence_length
          {| handle := h;
             msgs := cells (1 + restarts (tail (encode segs)))
                       (stored <$> layout 0 0 segs);
             nmsgs := 1 + restarts (tail (encode segs));
             write_data := cells sequence_length (payload segs) |}) ∧
  read_total (layout 0 0 segs) = read_tokens (encode segs) ∧
  read_ranges_within (read_tokens (encode segs)) (stored <$> layout 0 0 segs) ∧
  (sequence_length <= 65536 →
   read_total (stored <$> layout 0 0 segs) = read_tokens (encode segs)).
Proof.
  intros Hoob Hfits Hmax Hw Hd.
  destruct (encode_well_formed segs Hw) as (a & b & r & He).
  destruct (walk_well_formed segs [] [] 0 a (b :: r) Hw He) as [Hs Hb].
  change (at_start [] [] 0 a) with (start a) in Hs, Hb. cbn [app length] in Hs, Hb.
  change (Z.of_nat 0) with 0 in Hs.
  split; [apply well_formed_submitted; assumption|].
  split; [apply read_total_layout; assumption|].
  rewrite He in Hfits. split.
  - apply read_ranges_stored; [apply layout_narrow|].
    rewrite <- (read_total_layout segs Hoob Hd 0 0), <- Hs.
    apply placed_read_ranges; [apply walk_placed | apply walk_ranges].
  - intros Hshort. rewrite <- Hs, (walk_stored _ _ _ Hfits Hshort), Hs.
    apply read_total_layout; assumption.
Qed.

(** X7.  When an accepted sequence of at most 65536 tokens ends in
    [I2C_RESTART] and one more token after a read segment, the message
    filled in for that token asks again for the bytes of the segment
    before it: the read messages ask for the bytes of the segments, plus
    the length of the last segment, plus one for the token unless it is
    [I2C_RESTART]. *)
Theorem dangling_restart_asks_twice (h : Z) (segs : list segment) (t : Z)
    (sequence_length : Z) :
  fits (encode segs ++ [I2C_RESTART; t]) sequence_length →
  sequence_length <= 65536 →
  1 + restarts (tail (encode segs ++ [I2C_RESTART; t])) <= I2C_RDRW_IOCTL_MAX_MSGS →
  segs ≠ [] → all_clean segs = true →
  ∃ (m : i2c_msg) (ms : list i2c_msg) (bs : list Z),
    list.last (layout 0 0 segs) = Some m ∧
    i2c_send_sequence ioctl h (encode segs ++ [I2C_RESTART; t]) sequence_length =
      Ok (submitted ioctl sequence_length
            {| handle := h;
               msgs := cells (1 + restarts (tail (encode segs ++ [I2C_RESTART; t]))) ms;
               nmsgs := 1 + restarts (tail (encode segs ++ [I2C_RESTART; t]));
               write_data := cells sequence_length bs |}) ∧
    (flags m = I2C_M_RD →
     read_total ms =
       read_total (layout 0 0 segs) + len m + (if t =? I2C_RESTART then 0 else 1)).
Proof.
  intros Hfits Hshort Hmax Hsegs Hclean.
  assert (He : ∃ a body, encode segs = a :: body).
  { destruct segs as [|[a ds] more]; [congruence|]. cbn [encode]. eauto. }
  destruct He as (a & body & He). rewrite He in *. cbn [app tail] in *.
  destruct (walk_dangling segs [] [] 0 a body t Hclean He) as (m & Hl & Hs & Hb).
  change (at_start [] [] 0 a) with (start a) in Hs, Hb. cbn [app length] in Hs, Hb, Hl.
  exists m, (segments (walk (body ++ [I2C_RESTART; t]) (start a))),
    (written (walk (body ++ [I2C_RESTART; t]) (start a))).
  split; [exact Hl|]. split.
  - rewrite <- (walk_stored _ _ _ Hfits Hshort) at 1.
    apply i2c_send_sequence_accepted; try assumption. destruct body; discriminate.
  - intros Hflags. rewrite Hs, read_total_app.
    cbn [read_total continued flags len]. rewrite Hflags, Z.eqb_refl.
    change (Z.of_nat 0) with 0. destruct (t =? I2C_RESTART); lia.
Qed.

Lemma layout_writes (segs : list segment) :
  forallb (λ s, negb (reads (fst s))) segs = true →
  ∀ w r, Forall (λ m, flags m = 0 ∧ ∃ o, buf m = Msg_buf o) (layout w r segs) ∧
         read_total (layout w r segs) = 0.
Proof.
  induction segs as [|[a ds] more IH]; cbn [forallb fst]; intros Hw w r.
  - split; [constructor | reflexivity].
  - apply andb_prop in Hw as [Ha Hmore]. apply negb_true_iff in Ha.
    rewrite layout_cons. cbn [read_total].
    destruct (IH Hmore (w + Z.of_nat (length (staged (a, ds)))) (r + asked (a, ds)))
      as [Hf Ht].
    rewrite Ht. unfold message at 2. cbn [flags fst]. rewrite Ha.
    split; [|reflexivity].
    constructor; [|exact Hf]. unfold message. cbn [flags buf fst]. rewrite Ha.
    split; [reflexivity | eexists; reflexivity].
Qed.

Lemma writes_stored (ms : list i2c_msg) :
  Forall (λ m, flags m = 0 ∧ ∃ o, buf m = Msg_buf o) ms ∧ read_total ms = 0 →
  Forall (λ m, flags m = 0 ∧ ∃ o, buf m = Msg_buf o) (stored <$> ms) ∧
  read_total (stored <$> ms) = 0.
Proof.
  intros [Hw _]. induction Hw as [|m ms [Hf Hb] _ [IHw IHr]].
  - split; [constructor | reflexivity].
  - rewrite fmap_cons. cbn [read_total]. rewrite IHr.
    split; [constructor; [|exact IHw]|].
    + unfold stored. cbn [flags buf]. rewrite Hf. split; [reflexivity | exact Hb].
    + unfold stored. cbn [flags]. rewrite Hf. reflexivity.
Qed.

(** X8.  As the comment on [i2c_send_sequence] says, [received_data] is
    not used when there are no reads: for an accepted well-formed sequence
    whose address tokens all have bit 0 clear, every message is a write
    that points into [msg_buf], and no byte is asked for. *)
Theorem write_only_sequence_ignores_received_data (h : Z) (segs : list segment)
    (sequence_length : Z) :
  fits (encode segs) sequence_length →
  1 + restarts (tail (encode segs)) <= I2C_RDRW_IOCTL_MAX_MSGS →
  well_formed segs = true →
  forallb (λ s, negb (reads (fst s))) segs = true →
  ∃ (ms : list i2c_msg) (bs : list Z),
    i2c_send_sequence ioctl h (encode segs) sequence_length =
      Ok (submitted ioctl sequence_length
            {| handle := h; msgs := cells (1 + restarts (tail (encode segs))) ms;
               nmsgs := 1 + restarts (tail (encode segs));
               write_data := cells sequence_length bs |}) ∧
    Forall (λ m, flags m = 0 ∧ ∃ o, buf m = Msg_buf o) ms ∧
    read_total ms = 0.
Proof.
  intros Hfits Hmax Hw Hwrites.
  exists (stored <$> layout 0 0 segs), (payload segs).
  split; [apply well_formed_submitted; assumption|].
  apply writes_stored, layout_writes. exact Hwrites.
Qed.

Lemma address_byte_rebuilt (a : Z) :
  0 <= a < 256 →
  2 * Z.shiftr (u8 a) 1 +
  (if (if reads a then I2C_M_RD else 0) =? I2C_M_RD then 1 else 0) = a.
Proof.
  intros Ha. rewrite u8_small by exact Ha. unfold reads, I2C_M_RD.
  rewrite Z.shiftr_div_pow2 by lia. change (2 ^ 1) with 2.
  pose proof (Z.div_mod a 2 ltac:(lia)) as Hdm.
  pose proof (Z.bit0_mod a) as Hbit.
  destruct (Z.testbit a 0); cbn in *; lia.
Qed.

(** From the layout and the payload of documented segments the segments
    are read back. *)
Lemma decompile_layout (segs : list segment) :
  out_of_band → documented segs = true →
  ∀ (pre : list Z) (r : Z),
    segment_of (pre ++ payload segs) <$> layout (Z.of_nat (length pre)) r segs = segs.
Proof.
  intros Hoob Hd. pose proof Hoob as (Hrestart & Hread & Hne).
  induction segs as [|[a ds] more IH]; intros pre r; [reflexivity|].
  apply documented_cons in Hd as [Hs Hmore]. specialize (IH Hmore).
  unfold documented_segment in Hs. cbn [fst snd] in Hs.
  apply andb_prop in Hs as [Ha Hds]. apply is_byte_range in Ha.
  rewrite layout_cons, payload_cons, fmap_cons. f_equal.
  - unfold segment_of, message. cbn [addr flags len buf fst snd].
    rewrite address_byte_rebuilt by exact Ha. f_equal.
    unfold staged. cbn [fst snd]. destruct (reads a).
    + rewrite Nat2Z.id. apply read_tokens_reads in Hds as [_ <-]. reflexivity.
    + rewrite !Nat2Z.id, drop_app_length.
      rewrite bytes_clean by (assumption || lia). apply take_app_length.
  - rewrite app_assoc.
    replace (Z.of_nat (length pre) + Z.of_nat (length (staged (a, ds))))
      with (Z.of_nat (length (pre ++ staged (a, ds))))
      by (rewrite length_app; lia).
    apply IH.
Qed.

(** X9.  Nothing of a documented sequence of at most 65536 tokens is lost
    in compilation: from the messages submitted and the bytes staged, the
    segments of the sequence are read back, address bytes, bytes written
    and the number of bytes read alike. *)
Theorem documented_sequence_read_back (h : Z) (segs : list segment)
    (sequence_length : Z) :
  out_of_band →
  fits (encode segs) sequence_length →
  sequence_length <= 65536 →
  1 + restarts (tail (encode segs)) <= I2C_RDRW_IOCTL_MAX_MSGS →
  well_formed segs = true → documented segs = true →
  ∃ (ms : list i2c_msg) (bs : list Z),
    i2c_send_sequence ioctl h (encode segs) sequence_length =
      Ok (submitted ioctl sequence_length
            {| handle := h; msgs := cells (1 + restarts (tail (encode segs))) ms;
               nmsgs := 1 + restarts (tail (encode segs));
               write_data := cells sequence_length bs |}) ∧
    decompile ms bs = segs ∧ encode (decompile ms bs) = encode segs.
Proof.
  intros Hoob Hfits Hshort Hmax Hw Hd.
  exists (layout 0 0 segs), (payload segs).
  split.
  - rewrite well_formed_submitted by assumption.
    destruct (encode_well_formed segs Hw) as (a & b & r & He).
    destruct (walk_well_formed segs [] [] 0 a (b :: r) Hw He) as [Hs _].
    change (at_start [] [] 0 a) with (start a) in Hs. cbn [app length] in Hs.
    change (Z.of_nat 0) with 0 in Hs. rewrite He in Hfits.
    rewrite <- Hs, (walk_stored _ _ _ Hfits Hshort). reflexivity.
  - pose proof (decompile_layout segs Hoob Hd [] 0) as Hback.
    cbn [app length] in Hback. change (Z.of_nat 0) with 0 in Hback.
    unfold decompile. rewrite Hback.
    split; reflexivity.
Qed.

End Further.

(** * Properties of [i2c_open] *)

Section Opening.
Variable k : kernel.

Lemma name_table : forallb name_checked (seqZ 0 256) = true.
Proof. vm_compute. reflexivity. Qed.

Lemma name_checked_uint8 (bus : Z) : 0 <= bus < 256 → name_checked bus = true.
Proof.
  intros Hbus. apply (proj1 (forallb_forall name_checked (seqZ 0 256)) name_table).
  apply list_elem_of_In, elem_of_seqZ. lia.
Qed.

Lemma name_fits (bus : Z) :
  0 <= bus < 256 →
  (bus <= 9 ↔ (String.length (formatted_name bus) < DEVICE_NAME_LENGTH)%nat).
Proof.
  intros Hbus. pose proof (name_checked_uint8 bus Hbus) as Hc.
  unfold name_checked in Hc. apply andb_prop in Hc as [Hc _].
  apply andb_prop in Hc as [Hc _]. apply Bool.eqb_prop in Hc.
  rewrite <- Z.leb_le, <- Nat.ltb_lt, Hc. reflexivity.
Qed.

Lemma name_whole (bus : Z) :
  0 <= bus <= 9 → device_name bus = formatted_name bus.
Proof.
  intros Hbus. pose proof (name_checked_uint8 bus ltac:(lia)) as Hc.
  unfold name_checked in Hc. apply andb_prop in Hc as [Hc _].
  apply andb_prop in Hc as [_ Hc].
  rewrite (proj2 (Z.leb_le bus 9)) in Hc by lia. apply String.eqb_eq. exact Hc.
Qed.

Lemma name_injective (bus bus' : Z) :
  0 <= bus <= 9 → 0 <= bus' <= 9 →
  formatted_name bus = formatted_name bus' → bus = bus'.
Proof.
  intros Hbus Hbus' Hname. pose proof (name_checked_uint8 bus ltac:(lia)) as Hc.
  unfold name_checked in Hc. apply andb_prop in Hc as [_ Hc].
  pose proof (proj1 (forallb_forall _ _) Hc bus') as Hb.
  rewrite Hname, String.eqb_refl in Hb. apply Z.eqb_eq. apply Hb.
  apply list_elem_of_In, elem_of_seqZ. lia.
Qed.

Lemma opened_path (bus : Z) (path : String.string) :
  Sys_open path ∈ calls (i2c_open k bus) → bus <= 9 ∧ path = device_name bus.
Proof.
  unfold i2c_open. destruct (Z.ltb_spec 9 bus) as [Hbus|Hbus].
  - cbn [calls]. intros Hin. apply elem_of_nil in Hin. contradiction.
  - intros Hin. split; [exact Hbus|].
    destruct (open_device k (device_name bus) <? 0);
      [|destruct (check_i2c_functionality k (open_device k (device_name bus)) =? 0)];
      cbn [calls] in Hin;
      repeat (apply elem_of_cons in Hin as [Hin|Hin]; [congruence|]);
      apply elem_of_nil in Hin; contradiction.
Qed.

(** X10.  The sanity check of [i2c_open] turns down exactly the bus
    numbers whose device name would not fit [device_name]: for a
    [uint8_t] bus number, the name with its terminating 0 fits the 11
    bytes if and only if the number is at most 9, and every path
    [i2c_open] opens is the whole of ["/dev/i2c-<bus>"], never a name cut
    short. *)
Theorem device_name_never_cut_short (bus : Z) :
  0 <= bus < 256 →
  (bus <= 9 ↔ (String.length (formatted_name bus) + 1 <= DEVICE_NAME_LENGTH)%nat) ∧
  ∀ path, Sys_open path ∈ calls (i2c_open k bus) → path = formatted_name bus.
Proof.
  intros Hbus. split.
  - rewrite (name_fits bus Hbus). lia.
  - intros path Hin. apply opened_path in Hin as [Hle ->].
    apply name_whole. lia.
Qed.

(** X11.  Different bus numbers never open the same device: when two
    calls of [i2c_open], on whatever kernels, open the same path, their
    bus numbers are equal. *)
Theorem distinct_buses_open_distinct_devices (k' : kernel) (bus bus' : Z)
    (path : String.string) :
  0 <= bus < 256 → 0 <= bus' < 256 →
  Sys_open path ∈ calls (i2c_open k bus) →
  Sys_open path ∈ calls (i2c_open k' bus') →
  bus = bus'.
Proof.
  intros Hbus Hbus' Hin Hin'.
  apply opened_path in Hin as [Hle Hpath].
  assert (Hin'' : bus' <= 9 ∧ path = device_name bus').
  { revert Hin'. clear. unfold i2c_open. destruct (Z.ltb_spec 9 bus') as [Hb|Hb].
    - cbn [calls]. intros Hin. apply elem_of_nil in Hin. contradiction.
    - intros Hin. split; [exact Hb|].
      destruct (open_device k' (device_name bus') <? 0);
        [|destruct (check_i2c_functionality k' (open_device k' (device_name bus')) =? 0)];
        cbn [calls] in Hin;
        repeat (apply elem_of_cons in Hin as [Hin|Hin]; [congruence|]);
        apply elem_of_nil in Hin; contradiction. }
  destruct Hin'' as [Hle' Hpath'].
  rewrite name_whole in Hpath, Hpath' by lia.
  apply name_injective; [lia | lia | congruence].
Qed.

Lemma check_i2c_functionality_bit (fd : Z) :
  check_i2c_functionality k fd ≠ 0 ↔
  0 <= fst (i2c_funcs k fd) ∧ Z.testbit (snd (i2c_funcs k fd)) 0 = true.
Proof.
  unfold check_i2c_functionality, I2C_FUNC_I2C.
  destruct (i2c_funcs k fd) as [rc funcs]. cbn [fst snd].
  destruct (Z.ltb_spec rc 0) as [Hrc|Hrc].
  - split; [congruence | intros [? _]; lia].
  - change 1 with (Z.ones 1) at 1. rewrite Z.land_ones by lia.
    change (2 ^ 1) with 2. rewrite <- Z.bit0_mod.
    destruct (Z.testbit funcs 0); cbn.
    + split; [intros _; split; [exact Hrc | reflexivity] | discriminate].
    + split; [intros Hn; exfalso; apply Hn; reflexivity | intros [_ ?]; discriminate].
Qed.

(** X12.  [i2c_open] returns a handle, a number that is not negative,
    exactly when the bus number is at most 9, [open] on
    ["/dev/i2c-<bus>"] gave that very descriptor, the [I2C_FUNCS] ioctl on
    it did not fail and the functions it reported include [I2C_FUNC_I2C]. *)
Theorem i2c_open_returns_a_checked_handle (bus h : Z) :
  0 <= bus < 256 → 0 <= h →
  (returned_handle (i2c_open k bus) = h ↔
   bus <= 9 ∧ open_device k (formatted_name bus) = h ∧
   0 <= fst (i2c_funcs k h) ∧ Z.testbit (snd (i2c_funcs k h)) 0 = true).
Proof.
  intros Hbus Hh. unfold i2c_open.
  destruct (Z.ltb_spec 9 bus) as [Hgt|Hle].
  { cbn [returned_handle]. split; [lia | intros [? _]; lia]. }
  rewrite name_whole by lia.
  destruct (Z.ltb_spec (open_device k (formatted_name bus)) 0) as [Hneg|Hpos].
  { cbn [returned_handle]. split; [lia | intros (_ & ? & _); lia]. }
  pose proof (check_i2c_functionality_bit (open_device k (formatted_name bus))) as Hbit.
  destruct (Z.eqb_spec (check_i2c_functionality k (open_device k (formatted_name bus))) 0)
    as [Hzero|Hnonzero]; cbn [returned_handle].
  - split; [lia|]. intros (_ & <- & Hok). apply Hbit in Hok. contradiction.
  - split.
    + intros <-. split; [exact Hle|]. split; [reflexivity|]. apply Hbit. exact Hnonzero.
    + intros (_ & Hopen & _). exact Hopen.
Qed.

(** X13.  When the device is opened and then fails the check, either
    because the [I2C_FUNCS] ioctl fails or because [I2C_FUNC_I2C] is not
    among the functions, [i2c_open] returns -1 after the two calls [open]
    and [ioctl]: the descriptor is not closed, and the caller is not
    given it. *)
Theorem failed_check_leaves_descriptor_open (bus fd : Z) :
  0 <= bus <= 9 →
  open_device k (formatted_name bus) = fd → 0 <= fd →
  fst (i2c_funcs k fd) < 0 ∨ Z.testbit (snd (i2c_funcs k fd)) 0 = false →
  i2c_open k bus =
  {| calls := [Sys_open (formatted_name bus); Sys_i2c_funcs fd];
     returned_handle := -1 |}.
Proof.
  intros Hbus Hopen Hfd Hfail. unfold i2c_open.
  rewrite name_whole, Hopen by lia. tests.
  pose proof (check_i2c_functionality_bit fd) as Hbit.
  destruct (Z.eqb_spec (check_i2c_functionality k fd) 0) as [Hzero|Hnonzero];
    [reflexivity|].
  apply Hbit in Hnonzero as [Hrc Hset].
  destruct Hfail as [Hfail|Hfail]; [lia | congruence].
Qed.

End Opening.

(** * The statements at work

    The two token values are fixed (bits 8 and 9 of a token, outside the
    eight bits of data), the kernel carries out every transfer, and the
    statements above are run on the sequences of [example.c] and on a few
    others. *)

#[local] Existing Instance token_values.

Lemma token_values_out_of_band : out_of_band.
Proof. unfold out_of_band. cbn. lia. Qed.

(** C1: with [I2C_RESTART] as its last token a sequence is accepted,
    [count_segments] answers 2, and one message is filled in: the second
    cell of the array that is submitted was never written. *)
Lemma restart_as_last_token_is_counted_not_emitted :
  count_segments [0x70; 0x80; I2C_RESTART] 3 = Ok 2 ∧
  i2c_send_sequence ioctl_done 3 [0x70; 0x80; I2C_RESTART] 3 =
  Ok (submitted ioctl_done 3
        {| handle := 3;
           msgs := [Some {| addr := 0x38; flags := 0; len := 1; buf := Msg_buf 0 |};
                    None];
           nmsgs := 2;
           write_data := [Some 0x80; None; None] |}).
Proof. split; reflexivity. Qed.

Lemma emitted_segments_match_count_witness :
  fits pn_query 5 ∧ followed (tail pn_query) = true ∧
  ∃ (ms : list i2c_msg) (bs : list Z),
    i2c_send_sequence ioctl_done 3 pn_query 5 =
      Ok (submitted ioctl_done 5
            {| handle := 3; msgs := Some <$> ms; nmsgs := Z.of_nat (length ms);
               write_data := cells 5 bs |}) ∧
    count_segments pn_query 5 = Ok (Z.of_nat (length ms)) ∧
    Z.of_nat (length ms) = 1 + restarts (tail pn_query).
Proof.
  split; [split; [reflexivity | lia]|]. split; [reflexivity|].
  apply (emitted_segments_match_count ioctl_done 3 pn_query 5).
  - split; [reflexivity | lia].
  - lia.
  - vm_compute. discriminate.
  - reflexivity.
Defined.

Lemma restart_sequence_compiles_to_two_segments_witness :
  i2c_send_sequence ioctl_done 3 pn_query 5 =
  Ok (submitted ioctl_done 5
        {| handle := 3;
           msgs := [Some {| addr := Z.shiftr 0x70 1; flags := 0; len := 1;
                            buf := Msg_buf 0 |};
                    Some {| addr := Z.shiftr 0x71 1; flags := I2C_M_RD; len := 1;
                            buf := Received_data 0 |}];
           nmsgs := 2;
           write_data := [Some 0x8a; None; None; None; None] |}).
Proof.
  apply (restart_sequence_compiles_to_two_segments ioctl_done 3 0x70 0x8a 0x71).
  - exact token_values_out_of_band.
  - lia.
  - reflexivity.
  - lia.
  - reflexivity.
  - lia.
Defined.

Lemma pure_write_compiles_to_one_segment_witness :
  i2c_send_sequence ioctl_done 3 [0x70; 0x80; 3; 0xff] 4 =
  Ok (submitted ioctl_done 4
        {| handle := 3;
           msgs := [Some {| addr := Z.shiftr 0x70 1; flags := 0; len := 3;
                            buf := Msg_buf 0 |}];
           nmsgs := 1;
           write_data := [Some 0x80; Some 3; Some 0xff; None] |}).
Proof.
  apply (pure_write_compiles_to_one_segment ioctl_done 3 0x70 0x80 3 0xff).
  - exact token_values_out_of_band.
  - lia.
  - reflexivity.
  - lia.
  - lia.
  - lia.
Defined.



(** C5: a first token above 255 is accepted, and the device address of the
    message is taken from its low eight bits: 0x38 for the token 0x170,
    whose shift by one is 0xb8. *)
Lemma address_is_taken_from_the_low_byte :
  i2c_send_sequence ioctl_done 3 [0x170; 0x00] 2 =
  Ok (submitted ioctl_done 2
        {| handle := 3;
           msgs := [Some {| addr := 0x38; flags := 0; len := 1; buf := Msg_buf 0 |}];
           nmsgs := 1;
           write_data := [Some 0x00; None] |}) ∧
  Z.shiftr 0x170 1 = 0xb8 ∧ 0x38 ≠ Z.shiftr 0x170 1.
Proof. split; [reflexivity|]. split; [reflexivity | discriminate]. Qed.

Lemma address_tokens_decoded_witness :
  encode [(0x70, [0x8a]); (0x71, [])] ++ [I2C_READ] = pn_query ∧
  ∃ (front back : list i2c_msg) (bs : list Z),
    i2c_send_sequence ioctl_done 3 pn_query 5 =
      Ok (submitted ioctl_done 5
            {| handle := 3; msgs := cells 2 (front ++ back); nmsgs := 2;
               write_data := cells 5 bs |}) ∧
    Forall2 (λ s m, decodes (fst s) m ∧
                    (0 <= fst s < 256 → addr m = Z.shiftr (fst s) 1))
            [(0x70, [0x8a]); (0x71, [])] front.
Proof.
  split; [reflexivity|].
  refine (address_tokens_decoded ioctl_done 3 [(0x70, [0x8a]); (0x71, [])]
            [I2C_READ] 5 _ _ _ _ _).
  - split; [reflexivity | lia].
  - vm_compute. discriminate.
  - discriminate.
  - reflexivity.
  - discriminate.
Defined.

(** C6: a sequence of one token is turned down with both blocks allocated
    and released; and -1 is also what the call returns when it did submit
    and the kernel failed the transfer. *)
Lemma short_sequence_allocates_and_minus_one_is_shared :
  i2c_send_sequence ioctl_done 3 [0x70] 1 =
    Ok {| trace := [Malloc_messages 1; Malloc_msg_buf 1; Free_msg_buf; Free_messages];
          result := -1 |} ∧
  existsb is_malloc [Malloc_messages 1; Malloc_msg_buf 1; Free_msg_buf; Free_messages]
    = true ∧
  ∃ r, i2c_send_sequence ioctl_failed 3 init_sequence1 3 = Ok r ∧
       existsb is_ioctl (trace r) = true ∧ result r = -1.
Proof.
  split; [reflexivity|]. split; [reflexivity|].
  eexists. split; [reflexivity|]. split; reflexivity.
Qed.

Lemma short_sequence_rejected_witness :
  fits [0x70] 1 ∧
  i2c_send_sequence ioctl_done 3 [0x70] 1 =
  Ok {| trace := [Malloc_messages 1; Malloc_msg_buf 1; Free_msg_buf; Free_messages];
        result := -1 |}.
Proof.
  split; [split; [reflexivity | lia]|].
  apply (short_sequence_rejected ioctl_done 3 [0x70] 1).
  - split; [reflexivity | lia].
  - lia.
Defined.

Lemma too_many_segments_rejected_witness :
  fits too_many 128 ∧ 42 < 1 + restarts (tail too_many) ∧
  count_segments too_many 128 = Ok 43 ∧
  i2c_send_sequence ioctl_done 3 too_many 128 =
  Ok {| trace := [Malloc_messages 43; Malloc_msg_buf 128; Free_msg_buf; Free_messages];
        result := -1 |}.
Proof.
  split; [split; [reflexivity | lia]|]. split; [reflexivity|].
  refine (too_many_segments_rejected ioctl_done 3 too_many 128 _ _).
  - split; [reflexivity | lia].
  - reflexivity.
Defined.

Lemma msg_buf_never_overrun_witness :
  fits pn_query 5 ∧ count_segments pn_query 5 = Ok 2 ∧
  ∃ (st : state) (bs : list Z),
    compile pn_query 5 2 = Ok st ∧
    msg_buf st = cells 5 bs ∧
    Z.of_nat (length (msg_buf st)) = 5 ∧
    msg_cur_buf_ptr st = Z.of_nat (length bs) ∧
    Z.of_nat (length bs) <= 5 - 1.
Proof.
  split; [split; [reflexivity | lia]|]. split; [reflexivity|].
  apply (msg_buf_never_overrun pn_query 5 2).
  - split; [reflexivity | lia].
  - lia.
  - reflexivity.
Defined.

(** C9: an [I2C_RESTART] at index length-2 that comes right after another
    one is read as an address byte, so the last token gets a segment of
    its own, at address 0, of length 1, staged after the first; and on a
    read segment the message for the last token points past the bytes of
    the one before, not at its base. *)
Lemma restart_at_the_end_is_not_always_continued :
  i2c_send_sequence ioctl_done 3 [0x70; 0x80; I2C_RESTART; I2C_RESTART; 0x07] 5 =
    Ok (submitted ioctl_done 5
          {| handle := 3;
             msgs := [Some {| addr := 0x38; flags := 0; len := 1; buf := Msg_buf 0 |};
                      Some {| addr := 0; flags := 0; len := 1; buf := Msg_buf 1 |};
                      None];
             nmsgs := 3;
             write_data := [Some 0x80; Some 0x07; None; None; None] |}) ∧
  i2c_send_sequence ioctl_done 3 [0x71; I2C_READ; I2C_RESTART; I2C_READ] 4 =
    Ok (submitted ioctl_done 4
          {| handle := 3;
             msgs := [Some {| addr := 0x38; flags := I2C_M_RD; len := 1;
                              buf := Received_data 0 |};
                      Some {| addr := 0x38; flags := I2C_M_RD; len := 2;
                              buf := Received_data 1 |}];
             nmsgs := 2;
             write_data := [None; None; None; None] |}).
Proof. split; reflexivity. Qed.

Lemma dangling_restart_continues_segment_witness :
  fits (encode [(0x70, [0x80])] ++ [I2C_RESTART; 0x07]) 4 ∧
  ∃ m : i2c_msg,
    list.last (layout 0 0 [(0x70, [0x80])]) = Some m ∧
    i2c_send_sequence ioctl_done 3 [0x70; 0x80; I2C_RESTART; 0x07] 4 =
      Ok (submitted ioctl_done 4
            {| handle := 3;
               msgs := cells 2 (stored <$> (layout 0 0 [(0x70, [0x80])] ++
                                            [continued 0x07 m]));
               nmsgs := 2;
               write_data :=
                 cells 4
                   (payload [(0x70, [0x80])] ++
                    if (flags m =? 0) && negb (0x07 =? I2C_RESTART)
                    then [u8 0x07] else []) |}) ∧
    (4 <= 65536 →
     stored <$> (layout 0 0 [(0x70, [0x80])] ++ [continued 0x07 m]) =
     layout 0 0 [(0x70, [0x80])] ++ [continued 0x07 m]).
Proof.
  split; [split; [reflexivity | lia]|].
  refine (dangling_restart_continues_segment ioctl_done 3 [(0x70, [0x80])] 0x07 4
            _ _ _ _).
  - split; [reflexivity | lia].
  - vm_compute. discriminate.
  - discriminate.
  - reflexivity.
Defined.

Lemma only_length_and_count_reject_witness :
  fits pn_query 5 ∧
  ((∃ n, i2c_send_sequence ioctl_done 3 pn_query 5 = Ok (rejected n 5)) ↔
   (5 < 2 ∨ I2C_RDRW_IOCTL_MAX_MSGS < 1 + restarts (tail pn_query))) ∧
  (2 <= 5 → 1 + restarts (tail pn_query) <= I2C_RDRW_IOCTL_MAX_MSGS →
   ∃ (ms : list i2c_msg) (bs : list Z),
     i2c_send_sequence ioctl_done 3 pn_query 5 =
       Ok (submitted ioctl_done 5
             {| handle := 3;
                msgs := cells (1 + restarts (tail pn_query)) (stored <$> ms);
                nmsgs := 1 + restarts (tail pn_query);
                write_data := cells 5 bs |}) ∧
     (5 <= 65536 → stored <$> ms = ms) ∧
     (∃ (segs : list segment) (e : ending),
        pn_query = encode segs ++ ending_tokens e ∧ parsed segs e = true) ∧
     (∀ (segs : list segment) (e : ending),
        pn_query = encode segs ++ ending_tokens e → parsed segs e = true →
        ms = layout 0 0 segs ++ ending_messages e (layout 0 0 segs) ∧
        bs = payload segs ++ ending_bytes e (layout 0 0 segs)) ∧
     (∀ segs, pn_query = encode segs → well_formed segs = true →
              ms = layout 0 0 segs ∧ bs = payload segs)).
Proof.
  split; [split; [reflexivity | lia]|].
  apply (only_length_and_count_reject ioctl_done 3 pn_query 5).
  split; [reflexivity | lia].
Defined.

(** ** The further properties at work *)

Lemma count_segments_bounds_witness :
  fits pn_query 5 ∧
  ∃ n, count_segments pn_query 5 = Ok n ∧ n = 1 + restarts (tail pn_query) ∧
       1 <= n <= Z.max 1 5.
Proof.
  split; [split; [reflexivity | lia]|].
  refine (count_segments_bounds pn_query 5 _). split; [reflexivity | lia].
Defined.

Lemma blocks_released_on_every_path_witness :
  fits init_sequence1 3 ∧
  ∃ (r : returned) (n : Z),
    i2c_send_sequence ioctl_done 3 init_sequence1 3 = Ok r ∧
    (trace r = [Malloc_messages n; Malloc_msg_buf 3; Free_msg_buf; Free_messages] ∧
     result r = -1 ∨
     ∃ d, trace r = [Malloc_messages n; Malloc_msg_buf 3; Ioctl_I2C_RDWR d;
                     Free_msg_buf; Free_messages] ∧
          result r = ioctl_done d).
Proof.
  split; [split; [reflexivity | lia]|].
  refine (blocks_released_on_every_path ioctl_done 3 init_sequence1 3 _).
  split; [reflexivity | lia].
Defined.

Lemma messages_filled_in_bounds_witness :
  fits pn_query 5 ∧
  ∃ (ms : list i2c_msg) (bs : list Z),
    i2c_send_sequence ioctl_done 3 pn_query 5 =
      Ok (submitted ioctl_done 5
            {| handle := 3; msgs := cells 2 ms; nmsgs := 2;
               write_data := cells 5 bs |}) ∧
    1 <= Z.of_nat (length ms) <= 2 ∧
    Z.of_nat (length (cells 2 ms)) = 2.
Proof.
  split; [split; [reflexivity | lia]|].
  refine (messages_filled_in_bounds ioctl_done 3 pn_query 5 _ _ _).
  - split; [reflexivity | lia].
  - lia.
  - vm_compute. discriminate.
Defined.

Lemma write_messages_cover_staged_bytes_witness :
  fits pn_query 5 ∧
  ∃ (ms : list i2c_msg) (bs : list Z),
    i2c_send_sequence ioctl_done 3 pn_query 5 =
      Ok (submitted ioctl_done 5
            {| handle := 3; msgs := cells 2 ms; nmsgs := 2;
               write_data := cells 5 bs |}) ∧
    write_ranges_within (Z.of_nat (length bs)) ms ∧
    Z.of_nat (length bs) < 5.
Proof.
  split; [split; [reflexivity | lia]|].
  refine (write_messages_cover_staged_bytes ioctl_done 3 pn_query 5 _ _ _).
  - split; [reflexivity | lia].
  - lia.
  - vm_compute. discriminate.
Defined.


Lemma received_data_sized_by_read_tokens_witness :
  encode [(0x70, [0x8a]); (0x71, [I2C_READ])] = pn_query ∧
  read_tokens pn_query = 1 ∧
  i2c_send_sequence ioctl_done 3 pn_query 5 =
    Ok (submitted ioctl_done 5
          {| handle := 3;
             msgs := cells 2 (stored <$> layout 0 0 [(0x70, [0x8a]); (0x71, [I2C_READ])]);
             nmsgs := 2;
             write_data := cells 5 (payload [(0x70, [0x8a]); (0x71, [I2C_READ])]) |}) ∧
  read_total (layout 0 0 [(0x70, [0x8a]); (0x71, [I2C_READ])]) = 1 ∧
  read_ranges_within 1 (stored <$> layout 0 0 [(0x70, [0x8a]); (0x71, [I2C_READ])]) ∧
  (5 <= 65536 →
   read_total (stored <$> layout 0 0 [(0x70, [0x8a]); (0x71, [I2C_READ])]) = 1).
Proof.
  split; [reflexivity|]. split; [reflexivity|].
  refine (received_data_sized_by_read_tokens ioctl_done 3
            [(0x70, [0x8a]); (0x71, [I2C_READ])] 5 _ _ _ _ _).
  - exact token_values_out_of_band.
  - split; [reflexivity | lia].
  - vm_compute. discriminate.
  - reflexivity.
  - reflexivity.
Defined.

Lemma dangling_restart_asks_twice_witness :
  fits (encode [(0x71, [I2C_READ])] ++ [I2C_RESTART; I2C_READ]) 4 ∧
  ∃ (m : i2c_msg) (ms : list i2c_msg) (bs : list Z),
    list.last (layout 0 0 [(0x71, [I2C_READ])]) = Some m ∧
    i2c_send_sequence ioctl_done 3 [0x71; I2C_READ; I2C_RESTART; I2C_READ] 4 =
      Ok (submitted ioctl_done 4
            {| handle := 3; msgs := cells 2 ms; nmsgs := 2;
               write_data := cells 4 bs |}) ∧
    (flags m = I2C_M_RD →
     read_total ms =
       read_total (layout 0 0 [(0x71, [I2C_READ])]) + len m +
       (if I2C_READ =? I2C_RESTART then 0 else 1)).
Proof.
  split; [split; [reflexivity | lia]|].
  refine (dangling_restart_asks_twice ioctl_done 3 [(0x71, [I2C_READ])] I2C_READ 4
            _ _ _ _ _).
  - split; [reflexivity | lia].
  - lia.
  - vm_compute. discriminate.
  - discriminate.
  - reflexivity.
Defined.

Lemma write_only_sequence_ignores_received_data_witness :
  encode [(0x70, [0x80; 3])] = init_sequence1 ∧
  ∃ (ms : list i2c_msg) (bs : list Z),
    i2c_send_sequence ioctl_done 3 init_sequence1 3 =
      Ok (submitted ioctl_done 3
            {| handle := 3; msgs := cells 1 ms; nmsgs := 1;
               write_data := cells 3 bs |}) ∧
    Forall (λ m, flags m = 0 ∧ ∃ o, buf m = Msg_buf o) ms ∧
    read_total ms = 0.
Proof.
  split; [reflexivity|].
  refine (write_only_sequence_ignores_received_data ioctl_done 3
            [(0x70, [0x80; 3])] 3 _ _ _ _).
  - split; [reflexivity | lia].
  - vm_compute. discriminate.
  - reflexivity.
  - reflexivity.
Defined.

Lemma documented_sequence_read_back_witness :
  encode [(0x70, [0x8a]); (0x71, [I2C_READ])] = pn_query ∧
  ∃ (ms : list i2c_msg) (bs : list Z),
    i2c_send_sequence ioctl_done 3 pn_query 5 =
      Ok (submitted ioctl_done 5
            {| handle := 3; msgs := cells 2 ms; nmsgs := 2;
               write_data := cells 5 bs |}) ∧
    decompile ms bs = [(0x70, [0x8a]); (0x71, [I2C_READ])] ∧
    encode (decompile ms bs) = pn_query.
Proof.
  split; [reflexivity|].
  refine (documented_sequence_read_back ioctl_done 3
            [(0x70, [0x8a]); (0x71, [I2C_READ])] 5 _ _ _ _ _ _).
  - exact token_values_out_of_band.
  - split; [reflexivity | lia].
  - lia.
  - vm_compute. discriminate.
  - reflexivity.
  - reflexivity.
Defined.

Lemma device_name_never_cut_short_witness :
  (1 <= 9 ↔ (String.length (formatted_name 1) + 1 <= DEVICE_NAME_LENGTH)%nat) ∧
  ∀ path, Sys_open path ∈ calls (i2c_open kernel_with_i2c 1) →
          path = formatted_name 1.
Proof. refine (device_name_never_cut_short kernel_with_i2c 1 _). lia. Defined.

Lemma distinct_buses_open_distinct_devices_witness :
  Sys_open "/dev/i2c-1"%string ∈ calls (i2c_open kernel_with_i2c 1) ∧
  Sys_open "/dev/i2c-1"%string ∈ calls (i2c_open kernel_with_smbus_only 1) ∧ 1 = 1.
Proof.
  assert (Hi : Sys_open "/dev/i2c-1"%string ∈ calls (i2c_open kernel_with_i2c 1))
    by (vm_compute; left).
  assert (Hs : Sys_open "/dev/i2c-1"%string ∈ calls (i2c_open kernel_with_smbus_only 1))
    by (vm_compute; left).
  split; [exact Hi|]. split; [exact Hs|].
  refine (distinct_buses_open_distinct_devices kernel_with_i2c kernel_with_smbus_only
            1 1 "/dev/i2c-1"%string _ _ Hi Hs); lia.
Defined.

Lemma i2c_open_returns_a_checked_handle_witness :
  returned_handle (i2c_open kernel_with_i2c 1) = 3 ↔
  1 <= 9 ∧ open_device kernel_with_i2c (formatted_name 1) = 3 ∧
  0 <= fst (i2c_funcs kernel_with_i2c 3) ∧
  Z.testbit (snd (i2c_funcs kernel_with_i2c 3)) 0 = true.
Proof. refine (i2c_open_returns_a_checked_handle kernel_with_i2c 1 3 _ _); lia. Defined.

Lemma failed_check_leaves_descriptor_open_witness :
  open_device kernel_with_smbus_only (formatted_name 1) = 3 ∧
  Z.testbit (snd (i2c_funcs kernel_with_smbus_only 3)) 0 = false ∧
  i2c_open kernel_with_smbus_only 1 =
  {| calls := [Sys_open (formatted_name 1); Sys_i2c_funcs 3]; returned_handle := -1 |}.
Proof.
  split; [reflexivity|]. split; [reflexivity|].
  refine (failed_check_leaves_descriptor_open kernel_with_smbus_only 1 3 _ _ _ _).
  - lia.
  - reflexivity.
  - lia.
  - right. reflexivity.
Defined.
